(** * LambdaCpp: the closure representation of lambda terms and its codecs

    A verification development for [lambda-expression.hpp].

    The C++ type [expression] is a [std::function<expression(expression)>].
    Every value of that type built by the header is one of the lambda
    expressions written in the header together with the values it captured,
    so an [expression] is modelled as a closure: one constructor per lambda
    of the source, carrying the captured values.  Invoking the stored
    function ([pass_by_value]) is an interpreter over these closures; it
    threads the two objects that closures capture by reference (the counter
    of [church_decode] and the output iterator of [scott_decode]) and is
    bounded by the depth of nested [std::function] invocations, since the
    host evaluation may recurse forever.  Expressions made from lambdas
    written outside the header, and the empty [std::function], are outside
    the model. *)

From Stdlib Require Import NArith List Lia Arith.
Import ListNotations.

Set Implicit Arguments.

(** ** std::size_t *)

Definition size_bits : N := 64.
Definition size_modulus : N := 2 ^ size_bits.

(** [++decoded] on a [std::size_t]. *)
Definition size_incr (d : N) : N := ((d + 1) mod size_modulus)%N.

(** ** Closures *)

Inductive expression : Type :=
  (* expression::operator(): [arg, *this](expression _) *)
  | L_call (arg this : expression)
  (* church_encode: [n](expression f), [n, f](expression x) *)
  | L_church (n : N)
  | L_church_f (n : N) (f : expression)
  (* truth: [](x), [x](y) *)
  | L_truth
  | L_truth_x (x : expression)
  (* falsity: [](x), [](y) *)
  | L_falsity
  | L_falsity_x
  (* Y: [](f), and the lambda [f](x) that is passed as the argument *)
  | L_Y
  | L_Y_x (f : expression)
  (* I, K, S *)
  | L_I
  | L_K
  | L_K_x (x : expression)
  | L_S
  | L_S_x (x : expression)
  | L_S_xy (x y : expression)
  (* i *)
  | L_iota
  (* succ: [](n), [n](f), [n, f](x) *)
  | L_succ
  | L_succ_n (n : expression)
  | L_succ_nf (n f : expression)
  (* pred: [](n), [n](f), [n, f](x), then [f](g), [f, g](h), [x](y), [](y) *)
  | L_pred
  | L_pred_n (n : expression)
  | L_pred_nf (n f : expression)
  | L_pred_step (f : expression)
  | L_pred_step_g (f g : expression)
  | L_pred_const (x : expression)
  | L_pred_id
  (* add, sub, mult: [](n), [n](m) *)
  | L_add
  | L_add_n (n : expression)
  | L_sub
  | L_sub_n (n : expression)
  | L_mult
  | L_mult_n (n : expression)
  (* is_zero: [](n), and the inner [](x) *)
  | L_is_zero
  | L_is_zero_x
  (* cons: [](a), [a](b), [a, b](f) *)
  | L_cons
  | L_cons_a (a : expression)
  | L_cons_ab (a b : expression)
  (* car: [](p), and the inner [](x), [x](y) *)
  | L_car
  | L_car_x
  | L_car_xy (x : expression)
  (* cdr: [](p), and the inner [](x), [](y) *)
  | L_cdr
  | L_cdr_x
  | L_cdr_xy
  (* empty_list: [](f), [](x), [x](y) *)
  | L_empty_list
  | L_empty_list_x
  | L_empty_list_xy (x : expression)
  (* is_empty: [](l), and the inner [](x), [](y) *)
  | L_is_empty
  | L_is_empty_x
  | L_is_empty_xy
  (* church_decode: [&decoded](x) *)
  | L_count
  (* scott_decode: [&result](f), [&result, f](l), [&result, l, f](_) *)
  | L_output_list
  | L_output_list_f (f : expression)
  | L_output_list_lf (l f : expression).

(** ** The objects captured by reference *)

Record frames : Type := Frames {
  decoded : N;                 (* the local of church_decode *)
  result : list expression     (* what the output iterator of scott_decode has received *)
}.

(** Computations that may exhaust the depth bound and update the frames. *)
Definition M (A : Type) : Type := frames -> option (A * frames).

Definition ret {A} (a : A) : M A := fun st => Some (a, st).

Definition bind {A B} (m : M A) (k : A -> M B) : M B :=
  fun st => match m st with
            | Some (a, st') => k a st'
            | None => None
            end.

Definition out_of_depth {A} : M A := fun _ => None.

Notation "x <- m ;; k" := (bind m (fun x => k))
  (at level 61, m at next level, right associativity).

(** [++decoded] *)
Definition incr_decoded : M unit :=
  fun st => Some (tt, {| decoded := size_incr (decoded st); result := result st |}).

(** [*result++ = e] on a back inserter *)
Definition emit (e : expression) : M unit :=
  fun st => Some (tt, {| decoded := decoded st; result := result st ++ [e] |}).

Definition get_decoded : M N := fun st => Some (decoded st, st).

(** ** expression::operator() (name call)

    The body only builds the closure [[arg, *this](expression _)]. *)
Definition name_call (this arg : expression) : expression := L_call arg this.

(** ** The combinators, as the constants of namespace [combinators] *)

Module combinators.
Definition truth : expression := L_truth.
Definition falsity : expression := L_falsity.
Definition Y : expression := L_Y.
Definition I : expression := L_I.
Definition K : expression := L_K.
Definition S : expression := L_S.
Definition i : expression := L_iota.
Definition succ : expression := L_succ.
Definition pred : expression := L_pred.
Definition add : expression := L_add.
Definition sub : expression := L_sub.
Definition mult : expression := L_mult.
Definition is_zero : expression := L_is_zero.
Definition cons : expression := L_cons.
Definition car : expression := L_car.
Definition cdr : expression := L_cdr.
Definition empty_list : expression := L_empty_list.
Definition is_empty : expression := L_is_empty.
End combinators.

(** ** church_encode *)
Definition church_encode (n : N) : expression := L_church n.

(** The loop [for (i = 0; i < n; ++i) x = f(x);] *)
Definition church_loop (n : N) (f x : expression) : expression :=
  N.iter n (name_call f) x.

(** The body shared by the two lambdas [[f](expression x) { return f(x(x)); }]
    of [Y]. *)
Definition Y_body (f x : expression) : expression :=
  name_call f (name_call x x).

(** ** expression::pass_by_value (value call)

    [fuel] bounds the depth of nested invocations of stored functions. *)
Fixpoint pass_by_value (fuel : nat) (this arg : expression) : M expression :=
  match fuel with
  | O => out_of_depth
  | S fuel =>
    let pbv := pass_by_value fuel in
    match this with
    | L_call a e => r <- pbv e a ;; pbv r arg
    | L_church n => ret (L_church_f n arg)
    | L_church_f n f => ret (church_loop n f arg)
    | L_truth => ret (L_truth_x arg)
    | L_truth_x x => ret x
    | L_falsity => ret L_falsity_x
    | L_falsity_x => ret arg
    | L_Y => ret (Y_body arg (L_Y_x arg))
    | L_Y_x f => ret (Y_body f arg)
    | L_I => ret arg
    | L_K => ret (L_K_x arg)
    | L_K_x x => ret x
    | L_S => ret (L_S_x arg)
    | L_S_x x => ret (L_S_xy x arg)
    | L_S_xy x y => ret (name_call (name_call x arg) (name_call y arg))
    | L_iota => ret (name_call (name_call arg combinators.S) combinators.K)
    | L_succ => ret (L_succ_n arg)
    | L_succ_n n => ret (L_succ_nf n arg)
    | L_succ_nf n f => ret (name_call f (name_call (name_call n f) arg))
    | L_pred => ret (L_pred_n arg)
    | L_pred_n n => ret (L_pred_nf n arg)
    | L_pred_nf n f =>
        ret (name_call (name_call (name_call n (L_pred_step f)) (L_pred_const arg))
                       L_pred_id)
    | L_pred_step f => ret (L_pred_step_g f arg)
    | L_pred_step_g f g => ret (name_call arg (name_call g f))
    | L_pred_const x => ret x
    | L_pred_id => ret arg
    | L_add => ret (L_add_n arg)
    | L_add_n n => ret (name_call (name_call n combinators.succ) arg)
    | L_sub => ret (L_sub_n arg)
    | L_sub_n n => ret (name_call (name_call arg combinators.pred) n)
    | L_mult => ret (L_mult_n arg)
    | L_mult_n n =>
        ret (name_call (name_call n (name_call combinators.add arg)) (church_encode 0))
    | L_is_zero => ret (name_call (name_call arg L_is_zero_x) combinators.truth)
    | L_is_zero_x => ret combinators.falsity
    | L_cons => ret (L_cons_a arg)
    | L_cons_a a => ret (L_cons_ab a arg)
    | L_cons_ab a b => ret (name_call (name_call arg a) b)
    | L_car => ret (name_call arg L_car_x)
    | L_car_x => ret (L_car_xy arg)
    | L_car_xy x => ret x
    | L_cdr => ret (name_call arg L_cdr_x)
    | L_cdr_x => ret L_cdr_xy
    | L_cdr_xy => ret arg
    | L_empty_list => ret L_empty_list_x
    | L_empty_list_x => ret (L_empty_list_xy arg)
    | L_empty_list_xy x => ret x
    | L_is_empty => ret (name_call arg L_is_empty_x)
    | L_is_empty_x => ret L_is_empty_xy
    | L_is_empty_xy => ret combinators.falsity
    | L_count => _ <- incr_decoded ;; ret arg
    | L_output_list => ret (L_output_list_f arg)
    | L_output_list_f f =>
        r1 <- pbv combinators.is_empty arg ;;
        r2 <- pbv r1 combinators.empty_list ;;
        pbv r2 (L_output_list_lf arg f)
    | L_output_list_lf l f =>
        c <- pbv combinators.car l ;;
        _ <- emit c ;;
        d <- pbv combinators.cdr l ;;
        r <- pbv f d ;;
        pbv r arg
    end
  end.

(** ** church_decode *)
Definition church_decode (fuel : nat) (n : expression) : M N :=
  fun st =>
    (r1 <- pass_by_value fuel n L_count ;;
     r2 <- pass_by_value fuel r1 combinators.I ;;
     _ <- pass_by_value fuel r2 combinators.I ;;
     get_decoded) {| decoded := 0; result := result st |}.

(** ** scott_encode: [std::accumulate] over the reversed range *)
Definition scott_encode (s : list expression) : expression :=
  fold_left (fun acc e => name_call (name_call combinators.cons e) acc)
            (rev s) combinators.empty_list.

(** ** scott_decode *)
Definition scott_decode (fuel : nat) (list : expression) : M unit :=
  r1 <- pass_by_value fuel combinators.Y L_output_list ;;
  r2 <- pass_by_value fuel r1 list ;;
  r3 <- pass_by_value fuel r2 combinators.I ;;
  _ <- pass_by_value fuel r3 combinators.I ;;
  ret tt.

(** [std::transform] with a fallible function, left to right. *)
Fixpoint transform {A B} (f : A -> M B) (l : list A) : M (list B) :=
  match l with
  | [] => ret []
  | a :: l' => b <- f a ;; bs <- transform f l' ;; ret (b :: bs)
  end.

(** ** run_on_integer_sequence

    [out] is what the output iterator has received before the call; the
    function returns what it has received after it. *)
Definition run_on_integer_sequence (fuel : nat) (input : list N)
    (program : expression) (out : list N) : option (list N) :=
  let church_encoded := map church_encode input in
  match scott_decode fuel (name_call program (scott_encode church_encoded))
                     {| decoded := 0; result := [] |} with
  | Some (_, st) =>
      match transform (church_decode fuel) (result st) st with
      | Some (ns, _) => Some (out ++ ns)
      | None => None
      end
  | None => None
  end.

(** * Observation of expressions *)

(** [this.pass_by_value(arg)] started in [st] returns [r] and leaves [st']. *)
Definition evals (this arg : expression) (st : frames)
    (r : expression) (st' : frames) : Prop :=
  exists fuel, pass_by_value fuel this arg st = Some (r, st').

(** Two expressions are indistinguishable by one value call: on every
    argument and in every state both return, with the same expression and
    the same effects, or neither returns. *)
Definition equiv (a b : expression) : Prop :=
  forall x st r st', evals a x st r st' <-> evals b x st r st'.

(** An expression whose stored function never returns: [Y(I)]. *)
Definition diverging : expression := name_call combinators.Y combinators.I.

(** The recursive call that [Y] hands to [_output_list] in [scott_decode]:
    the self application [x(x)] of the lambda [[f](x) { return f(x(x)); }]
    with [f = _output_list]. *)
Definition output_list_self : expression :=
  name_call (L_Y_x L_output_list) (L_Y_x L_output_list).

(** [d] is [f] applied [k] times to [x], as far as value calls can tell:
    [d] cannot be told from [x] when [k] is 0, and otherwise from a deferred
    call of [f] on something that is [f] applied [k - 1] times to [x]. *)
Fixpoint numeral_chain (k : nat) (f x d : expression) : Prop :=
  match k with
  | O => equiv d x
  | Datatypes.S k' => exists a, equiv d (name_call f a) /\ numeral_chain k' f x a
  end.

(** [n] behaves as the Church numeral [k]: value-called with any [f] and
    then any [x] it returns, without effect, [f] applied [k] times to [x]. *)
Definition behaves_as_numeral (k : nat) (n : expression) : Prop :=
  forall f x, exists d,
    (forall st, evals (name_call n f) x st d st) /\ numeral_chain k f x d.

(** A computation treats the output iterator as write-only: what it returns
    and what it does to the counter do not depend on what the iterator has
    received, and it only appends to it. *)
Definition sink_parametric {A} (m : M A) : Prop :=
  forall st a st',
    m st = Some (a, st') ->
    exists delta,
      result st' = result st ++ delta /\
      forall o, m (Frames (decoded st) o) =
                Some (a, Frames (decoded st') (o ++ delta)).

(** [e] holds no closure of [scott_decode], that is, no closure that
    captures the output iterator.  Outside a call of [scott_decode] every
    expression is of this kind. *)
Fixpoint no_output (e : expression) : bool :=
  match e with
  | L_output_list | L_output_list_f _ | L_output_list_lf _ _ => false
  | L_call a b | L_S_xy a b | L_succ_nf a b | L_pred_nf a b
  | L_pred_step_g a b | L_cons_ab a b => no_output a && no_output b
  | L_church_f _ a | L_truth_x a | L_Y_x a | L_K_x a | L_S_x a
  | L_succ_n a | L_pred_n a | L_pred_step a | L_pred_const a
  | L_add_n a | L_sub_n a | L_mult_n a | L_cons_a a | L_car_xy a
  | L_empty_list_xy a => no_output a
  | _ => true
  end.

(** ** Behavioural equality

    [Y_related] relates two expressions that are built alike, closure by
    closure, from related captured values, where in any position the self
    application [x(x)] of the lambda [[f](x) { return f(x(x)); }] may stand
    against [Y(f)], and [Y(f)] against [f(Y(f))]. *)
Inductive Y_related : expression -> expression -> Prop :=
  | rel_call arg arg' this this' :
      Y_related arg arg' -> Y_related this this' -> Y_related (L_call arg this) (L_call arg' this')
  | rel_church n :
      Y_related (L_church n) (L_church n)
  | rel_church_f n f f' :
      Y_related f f' -> Y_related (L_church_f n f) (L_church_f n f')
  | rel_truth :
      Y_related L_truth L_truth
  | rel_truth_x x x' :
      Y_related x x' -> Y_related (L_truth_x x) (L_truth_x x')
  | rel_falsity :
      Y_related L_falsity L_falsity
  | rel_falsity_x :
      Y_related L_falsity_x L_falsity_x
  | rel_Y :
      Y_related L_Y L_Y
  | rel_Y_x f f' :
      Y_related f f' -> Y_related (L_Y_x f) (L_Y_x f')
  | rel_I :
      Y_related L_I L_I
  | rel_K :
      Y_related L_K L_K
  | rel_K_x x x' :
      Y_related x x' -> Y_related (L_K_x x) (L_K_x x')
  | rel_S :
      Y_related L_S L_S
  | rel_S_x x x' :
      Y_related x x' -> Y_related (L_S_x x) (L_S_x x')
  | rel_S_xy x x' y y' :
      Y_related x x' -> Y_related y y' -> Y_related (L_S_xy x y) (L_S_xy x' y')
  | rel_iota :
      Y_related L_iota L_iota
  | rel_succ :
      Y_related L_succ L_succ
  | rel_succ_n n n' :
      Y_related n n' -> Y_related (L_succ_n n) (L_succ_n n')
  | rel_succ_nf n n' f f' :
      Y_related n n' -> Y_related f f' -> Y_related (L_succ_nf n f) (L_succ_nf n' f')
  | rel_pred :
      Y_related L_pred L_pred
  | rel_pred_n n n' :
      Y_related n n' -> Y_related (L_pred_n n) (L_pred_n n')
  | rel_pred_nf n n' f f' :
      Y_related n n' -> Y_related f f' -> Y_related (L_pred_nf n f) (L_pred_nf n' f')
  | rel_pred_step f f' :
      Y_related f f' -> Y_related (L_pred_step f) (L_pred_step f')
  | rel_pred_step_g f f' g g' :
      Y_related f f' -> Y_related g g' -> Y_related (L_pred_step_g f g) (L_pred_step_g f' g')
  | rel_pred_const x x' :
      Y_related x x' -> Y_related (L_pred_const x) (L_pred_const x')
  | rel_pred_id :
      Y_related L_pred_id L_pred_id
  | rel_add :
      Y_related L_add L_add
  | rel_add_n n n' :
      Y_related n n' -> Y_related (L_add_n n) (L_add_n n')
  | rel_sub :
      Y_related L_sub L_sub
  | rel_sub_n n n' :
      Y_related n n' -> Y_related (L_sub_n n) (L_sub_n n')
  | rel_mult :
      Y_related L_mult L_mult
  | rel_mult_n n n' :
      Y_related n n' -> Y_related (L_mult_n n) (L_mult_n n')
  | rel_is_zero :
      Y_related L_is_zero L_is_zero
  | rel_is_zero_x :
      Y_related L_is_zero_x L_is_zero_x
  | rel_cons :
      Y_related L_cons L_cons
  | rel_cons_a a a' :
      Y_related a a' -> Y_related (L_cons_a a) (L_cons_a a')
  | rel_cons_ab a a' b b' :
      Y_related a a' -> Y_related b b' -> Y_related (L_cons_ab a b) (L_cons_ab a' b')
  | rel_car :
      Y_related L_car L_car
  | rel_car_x :
      Y_related L_car_x L_car_x
  | rel_car_xy x x' :
      Y_related x x' -> Y_related (L_car_xy x) (L_car_xy x')
  | rel_cdr :
      Y_related L_cdr L_cdr
  | rel_cdr_x :
      Y_related L_cdr_x L_cdr_x
  | rel_cdr_xy :
      Y_related L_cdr_xy L_cdr_xy
  | rel_empty_list :
      Y_related L_empty_list L_empty_list
  | rel_empty_list_x :
      Y_related L_empty_list_x L_empty_list_x
  | rel_empty_list_xy x x' :
      Y_related x x' -> Y_related (L_empty_list_xy x) (L_empty_list_xy x')
  | rel_is_empty :
      Y_related L_is_empty L_is_empty
  | rel_is_empty_x :
      Y_related L_is_empty_x L_is_empty_x
  | rel_is_empty_xy :
      Y_related L_is_empty_xy L_is_empty_xy
  | rel_count :
      Y_related L_count L_count
  | rel_output_list :
      Y_related L_output_list L_output_list
  | rel_output_list_f f f' :
      Y_related f f' -> Y_related (L_output_list_f f) (L_output_list_f f')
  | rel_output_list_lf l l' f f' :
      Y_related l l' -> Y_related f f' -> Y_related (L_output_list_lf l f) (L_output_list_lf l' f')
  (* Y(f) against f(Y(f)) *)
  | rel_fixed_point f f' :
      Y_related f f' -> Y_related (L_call f L_Y) (L_call (L_call f' L_Y) f')
  | rel_fixed_point_sym f f' :
      Y_related f f' -> Y_related (L_call (L_call f L_Y) f) (L_call f' L_Y)
  (* x(x), for x the lambda [f](x) of Y, against Y(f) *)
  | rel_self_application f f' :
      Y_related f f' -> Y_related (L_call (L_Y_x f) (L_Y_x f)) (L_call f' L_Y)
  | rel_self_application_sym f f' :
      Y_related f f' -> Y_related (L_call f L_Y) (L_call (L_Y_x f') (L_Y_x f')).

(** Frames agree up to [R]: the same counter, and outputs related one by
    one. *)
Definition frames_related (R : expression -> expression -> Prop)
    (st st' : frames) : Prop :=
  decoded st = decoded st' /\ Forall2 R (result st) (result st').

(** [R] is preserved by value calls: related expressions, value-called with
    related arguments in related frames, either both fail to return or return
    related expressions in related frames. *)
Definition simulation (R : expression -> expression -> Prop) : Prop :=
  forall this this' arg arg' st st' r st1,
    R this this' -> R arg arg' -> frames_related R st st' ->
    evals this arg st r st1 ->
    exists r' st1',
      evals this' arg' st' r' st1' /\ R r r' /\ frames_related R st1 st1'.

(** Two expressions behave the same under value calls, to any depth of
    further calls on whatever they return. *)
Definition bisimilar (a b : expression) : Prop :=
  exists R : expression -> expression -> Prop,
    (forall e, R e e) /\ (forall x y, R x y -> R y x) /\ simulation R /\ R a b.

(* END-DEFS *)
(** * Evaluation: depth monotonicity and the big-step view *)

Ltac unfold_monad :=
  unfold bind, ret, out_of_depth, emit, incr_decoded, get_decoded in *.

Ltac mono_step IH Hle :=
  match goal with
  | H : match pass_by_value ?n ?e ?a ?s with _ => _ end = Some _ |- _ =>
      let E := fresh "E" in
      destruct (pass_by_value n e a s) as [[? ?]|] eqn:E; [|discriminate H];
      rewrite (IH _ _ _ _ _ E Hle)
  end.

Lemma pass_by_value_mono : forall fuel fuel' this arg st res,
  pass_by_value fuel this arg st = Some res ->
  fuel <= fuel' ->
  pass_by_value fuel' this arg st = Some res.
Proof.
  induction fuel as [|fuel IH]; intros fuel' this arg st res H Hle.
  - discriminate.
  - destruct fuel' as [|fuel']; [lia|].
    assert (Hle' : fuel <= fuel') by lia.
    destruct this; cbn [pass_by_value] in *; unfold_monad;
      try exact H; repeat mono_step IH Hle';
      first [exact H | eapply IH; eassumption].
Qed.

Lemma evals_det : forall this arg st r1 st1 r2 st2,
  evals this arg st r1 st1 -> evals this arg st r2 st2 ->
  r1 = r2 /\ st1 = st2.
Proof.
  intros this arg st r1 st1 r2 st2 [n1 H1] [n2 H2].
  apply pass_by_value_mono with (fuel' := Nat.max n1 n2) in H1; [|lia].
  apply pass_by_value_mono with (fuel' := Nat.max n1 n2) in H2; [|lia].
  rewrite H1 in H2. injection H2 as -> ->. split; reflexivity.
Qed.

Lemma evals_now : forall this arg st r st',
  pass_by_value 1 this arg st = Some (r, st') -> evals this arg st r st'.
Proof. intros. exists 1. assumption. Qed.

Lemma evals_call : forall e a x st r1 st1 r st2,
  evals e a st r1 st1 -> evals r1 x st1 r st2 ->
  evals (name_call e a) x st r st2.
Proof.
  intros e a x st r1 st1 r st2 [n1 H1] [n2 H2].
  exists (Datatypes.S (Nat.max n1 n2)). cbn [name_call pass_by_value]. unfold bind.
  rewrite (pass_by_value_mono _ _ _ H1 (Nat.le_max_l n1 n2)).
  exact (pass_by_value_mono _ _ _ H2 (Nat.le_max_r n1 n2)).
Qed.

Lemma evals_call_inv : forall e a x st r st2,
  evals (name_call e a) x st r st2 ->
  exists r1 st1, evals e a st r1 st1 /\ evals r1 x st1 r st2.
Proof.
  intros e a x st r st2 [[|n] H]; [discriminate|].
  cbn [name_call pass_by_value] in H. unfold bind in H.
  destruct (pass_by_value n e a st) as [[r1 st1]|] eqn:E; [|discriminate].
  exists r1, st1. split; exists n; assumption.
Qed.

Lemma equiv_refl : forall a, equiv a a.
Proof. intros a x st r st'. tauto. Qed.

Lemma equiv_sym : forall a b, equiv a b -> equiv b a.
Proof. intros a b H x st r st'. symmetry. apply H. Qed.

Lemma equiv_trans : forall a b c, equiv a b -> equiv b c -> equiv a c.
Proof. intros a b c H1 H2 x st r st'. rewrite (H1 x st r st'). apply H2. Qed.

(** A deferred call whose function part returns at once, without effect,
    is indistinguishable from what it returns. *)
Lemma equiv_call_value : forall e a v,
  (forall st, evals e a st v st) -> equiv (name_call e a) v.
Proof.
  intros e a v Hv x st r st'. split.
  - intros H. apply evals_call_inv in H. destruct H as (r1 & st1 & H1 & H2).
    destruct (evals_det H1 (Hv st)) as [-> ->]. exact H2.
  - intros H. eapply evals_call; [apply Hv | exact H].
Qed.

Lemma equiv_call_cong : forall e e' a,
  equiv e e' -> equiv (name_call e a) (name_call e' a).
Proof.
  intros e e' a He x st r st'. split; intros H;
    apply evals_call_inv in H; destruct H as (r1 & st1 & H1 & H2);
    apply He in H1; eapply evals_call; eassumption.
Qed.

(** * The name call *)

(** C1. For every expression [e] and argument [a], the name call [e(a)] is
    a closure (it is built without evaluating anything and cannot fail), and
    value-calling that closure with an argument [ignored] performs
    [e.pass_by_value(a).pass_by_value(ignored)]: at every depth the value
    call of the closure is the value call of [e] on [a] followed by the
    value call of what it returned on [ignored], and it returns exactly when
    both of these return. *)
Theorem name_call_value_call : forall (e a ignored : expression) (st : frames),
  name_call e a = L_call a e /\
  (forall fuel,
      pass_by_value (Datatypes.S fuel) (name_call e a) ignored st =
      (r <- pass_by_value fuel e a ;; pass_by_value fuel r ignored) st) /\
  (forall r st',
      evals (name_call e a) ignored st r st' <->
      exists r1 st1, evals e a st r1 st1 /\ evals r1 ignored st1 r st').
Proof.
  intros e a ignored st. split; [reflexivity|]. split; [reflexivity|].
  intros r st'. split.
  - apply evals_call_inv.
  - intros (r1 & st1 & H1 & H2). eapply evals_call; eassumption.
Qed.

Lemma Y_I_unfolding_diverges : forall fuel x st,
  pass_by_value fuel (Y_body combinators.I (L_Y_x combinators.I)) x st = None.
Proof.
  induction fuel as [fuel IH] using lt_wf_ind. intros x st.
  destruct fuel as [|[|[|fuel]]]; try reflexivity.
  change (pass_by_value (Datatypes.S fuel)
            (Y_body combinators.I (L_Y_x combinators.I)) x st = None).
  apply IH. lia.
Qed.

Lemma diverging_never_returns : forall fuel x st,
  pass_by_value fuel diverging x st = None.
Proof.
  intros [|[|fuel]] x st; try reflexivity.
  change (pass_by_value (Datatypes.S fuel)
            (Y_body combinators.I (L_Y_x combinators.I)) x st = None).
  apply Y_I_unfolding_diverges.
Qed.

(** C10. The name call [e(a)] does not run the function stored in [e]: it is
    the closure [L_call a e], built without any value call (it has no depth
    bound and no access to the frames).  The stored function of [e] runs
    when the closure is value-called, as the first thing that value call
    does.  So the name call of the expression [diverging], whose stored
    function returns on no argument at any depth, is still a closure, and
    it is the value call of that closure that never returns. *)
Theorem name_call_does_not_invoke : forall (e a x : expression) (st : frames),
  name_call e a = L_call a e /\
  (forall fuel,
      pass_by_value (Datatypes.S fuel) (name_call e a) x st =
      match pass_by_value fuel e a st with
      | Some (r, st1) => pass_by_value fuel r x st1
      | None => None
      end) /\
  (forall fuel, pass_by_value fuel diverging a st = None) /\
  name_call diverging a = L_call a diverging /\
  (forall fuel, pass_by_value fuel (name_call diverging a) x st = None).
Proof.
  intros e a x st. repeat split.
  - intros fuel. apply diverging_never_returns.
  - intros [|fuel]; [reflexivity|].
    cbn [name_call pass_by_value]. unfold bind.
    rewrite diverging_never_returns. reflexivity.
Qed.

(** * church_encode and church_decode *)

Lemma church_loop_nat : forall n f x,
  church_loop n f x = Nat.iter (N.to_nat n) (name_call f) x.
Proof. intros. unfold church_loop. apply N2Nat.inj_iter. Qed.

(** A chain of [k] deferred calls of the counting lambda, forced once,
    increments the counter [k] times and returns the seed's result. *)
Lemma count_chain : forall k fuel d out,
  k < fuel ->
  pass_by_value fuel (Nat.iter k (name_call L_count) combinators.I)
                combinators.I (Frames d out) =
  Some (combinators.I, Frames (Nat.iter k size_incr d) out).
Proof.
  induction k as [|k IH]; intros fuel d out Hlt.
  - destruct fuel; [lia|]. reflexivity.
  - destruct fuel as [|[|fuel]]; try lia.
    change (pass_by_value (Datatypes.S fuel)
              (Nat.iter k (name_call L_count) combinators.I) combinators.I
              (Frames (size_incr d) out) =
            Some (combinators.I, Frames (Nat.iter (Datatypes.S k) size_incr d) out)).
    rewrite IH by lia. rewrite Nat.iter_succ_r. reflexivity.
Qed.

Lemma iter_size_incr : forall k d,
  (d + N.of_nat k < size_modulus)%N ->
  Nat.iter k size_incr d = (d + N.of_nat k)%N.
Proof.
  induction k as [|k IH]; intros d H.
  - simpl. rewrite N.add_0_r. reflexivity.
  - rewrite Nat.iter_succ, IH by lia. unfold size_incr.
    rewrite N.mod_small by lia. lia.
Qed.

(** C2. For every natural number [n] that a [std::size_t] holds (so in
    particular for 0 through 100), [church_decode(church_encode(n))] returns
    [n], at every depth bound above [n]. *)
Theorem church_decode_encode : forall (n : N) (fuel : nat) (st : frames),
  (n < size_modulus)%N ->
  N.to_nat n < fuel ->
  church_decode fuel (church_encode n) st = Some (n, Frames n (result st)).
Proof.
  intros n fuel st Hn Hfuel.
  destruct fuel as [|fuel]; [lia|].
  unfold church_decode, church_encode, bind.
  change (pass_by_value (Datatypes.S fuel) (L_church n) L_count
            {| decoded := 0; result := result st |})
    with (Some (L_church_f n L_count, {| decoded := 0; result := result st |})).
  cbv beta iota.
  change (pass_by_value (Datatypes.S fuel) (L_church_f n L_count) combinators.I
            {| decoded := 0; result := result st |})
    with (Some (church_loop n L_count combinators.I,
                {| decoded := 0; result := result st |})).
  cbv beta iota. rewrite church_loop_nat, count_chain by lia.
  rewrite iter_size_incr by (rewrite N2Nat.id; lia).
  rewrite N2Nat.id, N.add_0_l. reflexivity.
Qed.

(** The round trip at [n = 100]. *)
Lemma church_decode_encode_witness :
  church_decode 101 (church_encode 100) (Frames 0 []) = Some (100%N, Frames 100 []).
Proof.
  apply (@church_decode_encode 100%N 101 (Frames 0 [])).
  - reflexivity.
  - vm_compute. lia.
Defined.

(** * The list combinators *)

(** C5, as the specification states it, fails: value-calling [empty_list]
    with [I] and the result with [I] does not return [I], nor anything that
    one value call cannot tell from [I]. *)
Lemma empty_list_is_not_second_projection :
  ~ (forall f x st, exists r r2,
        evals combinators.empty_list f st r st /\
        evals r x st r2 st /\ equiv r2 x).
Proof.
  intros H.
  destruct (H combinators.I combinators.I (Frames 0 [])) as (r & r2 & H1 & H2 & H3).
  assert (E1 : evals combinators.empty_list combinators.I (Frames 0 [])
                 L_empty_list_x (Frames 0 [])) by (apply evals_now; reflexivity).
  destruct (evals_det H1 E1) as [-> _].
  assert (E2 : evals L_empty_list_x combinators.I (Frames 0 [])
                 (L_empty_list_xy combinators.I) (Frames 0 []))
    by (apply evals_now; reflexivity).
  destruct (evals_det H2 E2) as [-> _].
  assert (E3 : evals (L_empty_list_xy combinators.I) combinators.K (Frames 0 [])
                 combinators.I (Frames 0 [])) by (apply evals_now; reflexivity).
  apply H3 in E3.
  assert (E4 : evals combinators.I combinators.K (Frames 0 [])
                 combinators.K (Frames 0 [])) by (apply evals_now; reflexivity).
  destruct (evals_det E3 E4) as [E _]. discriminate E.
Qed.

(** C5, amended. [empty_list] is the term λf x y. x: value-calling it
    with any [f] returns an expression that, value-called with any [x],
    returns an expression that, value-called with any [y], returns [x]; no
    call has an effect. *)
Theorem empty_list_is_constant_truth : forall (f x y : expression) (st : frames),
  exists r1 r2,
    pass_by_value 1 combinators.empty_list f st = Some (r1, st) /\
    pass_by_value 1 r1 x st = Some (r2, st) /\
    pass_by_value 1 r2 y st = Some (x, st).
Proof.
  intros f x y st. exists L_empty_list_x, (L_empty_list_xy x).
  repeat split.
Qed.

(** C7. For all expressions [a] and [b]: [is_empty(empty_list)], value-called
    with [x] and the result with [y], returns [x], as [truth] does; and
    [is_empty(cons(a)(b))], value-called with [x] and the result with [y],
    returns [y], as [falsity] does.  No call has an effect, and neither [a]
    nor [b] is evaluated.  The same holds when the two arguments are given
    by name calls: the result cannot be told from [x], respectively [y]. *)
Theorem is_empty_decides : forall (a b x y : expression) (st : frames),
  (exists r, evals (name_call combinators.is_empty combinators.empty_list) x st r st /\
             evals r y st x st) /\
  (exists r, evals combinators.truth x st r st /\ evals r y st x st) /\
  (exists r, evals (name_call combinators.is_empty
                      (name_call (name_call combinators.cons a) b)) x st r st /\
             evals r y st y st) /\
  (exists r, evals combinators.falsity x st r st /\ evals r y st y st) /\
  equiv (name_call (name_call (name_call combinators.is_empty combinators.empty_list) x) y) x /\
  equiv (name_call (name_call (name_call combinators.is_empty
                      (name_call (name_call combinators.cons a) b)) x) y) y.
Proof.
  intros a b x y st. split; [|split; [|split; [|split; [|split]]]].
  - exists (L_empty_list_xy x). split; [exists 4 | exists 1]; reflexivity.
  - exists (L_truth_x x). split; exists 1; reflexivity.
  - exists L_falsity_x. split; [exists 8 | exists 1]; reflexivity.
  - exists L_falsity_x. split; exists 1; reflexivity.
  - apply equiv_call_value. intros st0. exists 6. reflexivity.
  - apply equiv_call_value. intros st0. exists 10. reflexivity.
Qed.

(** * scott_encode and scott_decode *)

Lemma scott_encode_nil : scott_encode [] = combinators.empty_list.
Proof. reflexivity. Qed.

Lemma scott_encode_cons : forall e s,
  scott_encode (e :: s) =
  name_call (name_call combinators.cons e) (scott_encode s).
Proof.
  intros e s. unfold scott_encode. cbn [rev].
  rewrite fold_left_app. reflexivity.
Qed.

(** Big-step rules for the two lambdas of [_output_list] that call back. *)
Lemma evals_output_list_f : forall f l st r1 st1 r2 st2 r st3,
  evals combinators.is_empty l st r1 st1 ->
  evals r1 combinators.empty_list st1 r2 st2 ->
  evals r2 (L_output_list_lf l f) st2 r st3 ->
  evals (L_output_list_f f) l st r st3.
Proof.
  intros f l st r1 st1 r2 st2 r st3 [n1 H1] [n2 H2] [n3 H3].
  exists (Datatypes.S (n1 + n2 + n3)). cbn [pass_by_value]. unfold bind.
  rewrite (pass_by_value_mono (fuel' := n1 + n2 + n3) _ _ _ H1) by lia.
  rewrite (pass_by_value_mono (fuel' := n1 + n2 + n3) _ _ _ H2) by lia.
  apply (pass_by_value_mono _ _ _ H3). lia.
Qed.

Lemma evals_output_list_lf : forall f l x st c st1 d st2 r1 st3 r st4,
  evals combinators.car l st c st1 ->
  evals combinators.cdr l (Frames (decoded st1) (result st1 ++ [c])) d st2 ->
  evals f d st2 r1 st3 ->
  evals r1 x st3 r st4 ->
  evals (L_output_list_lf l f) x st r st4.
Proof.
  intros f l x st c st1 d st2 r1 st3 r st4 [n1 H1] [n2 H2] [n3 H3] [n4 H4].
  exists (Datatypes.S (n1 + n2 + n3 + n4)). cbn [pass_by_value]. unfold bind.
  rewrite (pass_by_value_mono (fuel' := n1 + n2 + n3 + n4) _ _ _ H1) by lia.
  unfold emit.
  rewrite (pass_by_value_mono (fuel' := n1 + n2 + n3 + n4) _ _ _ H2) by lia.
  rewrite (pass_by_value_mono (fuel' := n1 + n2 + n3 + n4) _ _ _ H3) by lia.
  apply (pass_by_value_mono _ _ _ H4). lia.
Qed.

(** The recursive call unfolds to [_output_list(self)]. *)
Lemma evals_output_list_self : forall l st r st',
  evals (L_output_list_f output_list_self) l st r st' ->
  evals output_list_self l st r st'.
Proof.
  intros l st r st' H. unfold output_list_self.
  eapply evals_call; [exists 1; reflexivity|].
  change (Y_body L_output_list (L_Y_x L_output_list))
    with (name_call L_output_list output_list_self).
  eapply evals_call; [exists 1; reflexivity | exact H].
Qed.

(** What the selectors make of anything that behaves as a cons cell. *)
Lemma car_of_cons : forall l e acc,
  equiv l (name_call (name_call combinators.cons e) acc) ->
  equiv (name_call l L_car_x) e.
Proof.
  intros l e acc Hl.
  apply equiv_trans with (name_call (name_call L_car_x e) acc).
  - apply equiv_call_value. intros st. apply Hl. exists 4. cbn. reflexivity.
  - apply equiv_call_value. intros st. exists 3. cbn. reflexivity.
Qed.

Lemma cdr_of_cons : forall l e acc,
  equiv l (name_call (name_call combinators.cons e) acc) ->
  equiv (name_call l L_cdr_x) acc.
Proof.
  intros l e acc Hl.
  apply equiv_trans with (name_call (name_call L_cdr_x e) acc).
  - apply equiv_call_value. intros st. apply Hl. exists 4. cbn. reflexivity.
  - apply equiv_call_value. intros st. exists 3. cbn. reflexivity.
Qed.

(** The loop of [scott_decode]: on anything that behaves as the encoding of
    [s], [_output_list(self)(l)] forced once emits one expression per element
    of [s], each behaving as that element, and stops. *)
Lemma output_list_loop : forall s l d o,
  equiv l (scott_encode s) ->
  exists out,
    evals (name_call (L_output_list_f output_list_self) l) combinators.I
          (Frames d o) L_empty_list_x (Frames d (o ++ out)) /\
    Forall2 equiv out s.
Proof.
  induction s as [|e s IH]; intros l d o Hl.
  - exists []. split; [|constructor]. rewrite app_nil_r.
    eapply evals_call.
    + eapply evals_output_list_f.
      * exists 1. reflexivity.
      * eapply evals_call; [apply Hl; exists 1; reflexivity | exists 1; reflexivity].
      * exists 1. reflexivity.
    + exists 1. reflexivity.
  - rewrite scott_encode_cons in Hl.
    destruct (IH (name_call l L_cdr_x) d (o ++ [name_call l L_car_x])
                 (cdr_of_cons Hl)) as (out & Hev & Hout).
    apply evals_call_inv in Hev. destruct Hev as (r1 & st1 & Hev1 & Hev2).
    exists (name_call l L_car_x :: out). split.
    + replace (o ++ name_call l L_car_x :: out)
        with ((o ++ [name_call l L_car_x]) ++ out)
        by (rewrite <- app_assoc; reflexivity).
      eapply evals_call.
      * eapply evals_output_list_f.
        -- exists 1. reflexivity.
        -- eapply evals_call; [apply Hl; exists 4; cbn; reflexivity | exists 5; cbn; reflexivity].
        -- exists 1. reflexivity.
      * eapply evals_output_list_lf.
        -- exists 1. reflexivity.
        -- exists 1. reflexivity.
        -- apply evals_output_list_self. exact Hev1.
        -- exact Hev2.
    + constructor; [exact (car_of_cons Hl) | exact Hout].
Qed.

Lemma scott_decode_evals : forall list st r2 st1 r3 st2 r4 st3,
  evals (name_call L_output_list output_list_self) list st r2 st1 ->
  evals r2 combinators.I st1 r3 st2 ->
  evals r3 combinators.I st2 r4 st3 ->
  exists fuel, forall fuel', fuel <= fuel' ->
    scott_decode fuel' list st = Some (tt, st3).
Proof.
  intros list st r2 st1 r3 st2 r4 st3 [n1 H1] [n2 H2] [n3 H3].
  exists (Datatypes.S (n1 + n2 + n3)). intros fuel' Hle.
  destruct fuel' as [|fuel']; [lia|].
  unfold scott_decode, bind.
  change (pass_by_value (Datatypes.S fuel') combinators.Y L_output_list st)
    with (Some (name_call L_output_list output_list_self, st)).
  cbv beta iota.
  rewrite (pass_by_value_mono (fuel' := Datatypes.S fuel') _ _ _ H1) by lia.
  rewrite (pass_by_value_mono (fuel' := Datatypes.S fuel') _ _ _ H2) by lia.
  rewrite (pass_by_value_mono (fuel' := Datatypes.S fuel') _ _ _ H3) by lia.
  reflexivity.
Qed.

(** [church_decode] only value-calls its argument, so it returns [n] on
    anything that one value call cannot tell from [church_encode n]. *)
Lemma church_decode_equiv : forall c n st,
  equiv c (church_encode n) ->
  (n < size_modulus)%N ->
  exists fuel, church_decode fuel c st = Some (n, Frames n (result st)).
Proof.
  intros c n st Hc Hn.
  assert (H1 : evals c L_count (Frames 0 (result st))
                 (L_church_f n L_count) (Frames 0 (result st)))
    by (apply Hc; exists 1; reflexivity).
  destruct H1 as [n1 H1].
  exists (n1 + Datatypes.S (N.to_nat n)).
  unfold church_decode, bind.
  rewrite (pass_by_value_mono _ _ _ H1) by lia.
  rewrite (@pass_by_value_mono 1 (n1 + Datatypes.S (N.to_nat n))
             (L_church_f n L_count) combinators.I (Frames 0 (result st)) _
             eq_refl) by lia.
  rewrite church_loop_nat, count_chain by lia.
  rewrite iter_size_incr by (rewrite N2Nat.id; lia).
  rewrite N2Nat.id, N.add_0_l. reflexivity.
Qed.

(** C3. For every finite sequence [s] of expressions, [scott_decode] applied
    to [scott_encode s] returns (at every depth bound from some bound on) and
    has then appended to the output exactly one expression per element of
    [s], in the order of [s], each of which cannot be told from the
    corresponding element of [s] by value-calling it; the counter is left
    as it was.  In particular, when [s] holds the Church encodings of the
    naturals [ns], [church_decode] of the emitted expressions returns [ns],
    element for element. *)
Theorem scott_decode_encode : forall (s : list expression) (st : frames),
  exists fuel out,
    (forall fuel', fuel <= fuel' ->
       scott_decode fuel' (scott_encode s) st =
       Some (tt, Frames (decoded st) (result st ++ out))) /\
    Forall2 equiv out s /\
    (forall ns,
       s = map church_encode ns ->
       Forall (fun n => (n < size_modulus)%N) ns ->
       Forall2 (fun c n => forall st0, exists k,
                   church_decode k c st0 = Some (n, Frames n (result st0)))
               out ns).
Proof.
  intros s [d o].
  destruct (@output_list_loop s (scott_encode s) d o (equiv_refl _))
    as (out & Hev & Hout).
  apply evals_call_inv in Hev. destruct Hev as (r2 & st1 & Hev1 & Hev2).
  assert (Hrun : evals (name_call L_output_list output_list_self)
                   (scott_encode s) (Frames d o) r2 st1).
  { eapply evals_call; [exists 1; reflexivity | exact Hev1]. }
  assert (Hlast : evals L_empty_list_x combinators.I (Frames d (o ++ out))
                    (L_empty_list_xy combinators.I) (Frames d (o ++ out)))
    by (exists 1; reflexivity).
  destruct (scott_decode_evals Hrun Hev2 Hlast) as [fuel Hfuel].
  exists fuel, out. split; [exact Hfuel|]. split; [exact Hout|].
  intros ns -> Hns. clear Hfuel Hrun Hev1 Hev2 Hlast.
  revert out Hout. induction Hns as [|n ns Hn Hns IH]; intros out Hout.
  - inversion Hout. constructor.
  - inversion Hout as [|c e out' s' Hc Hout' E1 E2]. subst. constructor.
    + intros st0. apply church_decode_equiv; assumption.
    + apply IH. exact Hout'.
Qed.

(** * Church arithmetic: pred, sub and is_zero *)

Lemma numeral_chain_equiv : forall k f x d d',
  equiv d' d -> numeral_chain k f x d -> numeral_chain k f x d'.
Proof.
  intros [|k] f x d d' He H; cbn [numeral_chain] in *.
  - eapply equiv_trans; eassumption.
  - destruct H as (a & Ha & Hk). exists a. split; [|exact Hk].
    eapply equiv_trans; eassumption.
Qed.

Lemma behaves_as_numeral_equiv : forall k n n',
  equiv n' n -> behaves_as_numeral k n -> behaves_as_numeral k n'.
Proof.
  intros k n n' He H f x. destruct (H f x) as (d & Hd & Hk).
  exists d. split; [|exact Hk]. intros st.
  destruct (evals_call_inv (Hd st)) as (r1 & st1 & H1 & H2).
  eapply evals_call; [apply He; exact H1 | exact H2].
Qed.

Lemma church_loop_chain : forall k f x,
  numeral_chain k f x (Nat.iter k (name_call f) x).
Proof.
  induction k as [|k IH]; intros f x; cbn [numeral_chain].
  - apply equiv_refl.
  - exists (Nat.iter k (name_call f) x). split; [apply equiv_refl | apply IH].
Qed.

Lemma church_encode_numeral : forall n,
  behaves_as_numeral (N.to_nat n) (church_encode n).
Proof.
  intros n f x. exists (Nat.iter (N.to_nat n) (name_call f) x).
  split; [|apply church_loop_chain].
  intros st. exists 3. rewrite <- church_loop_nat. reflexivity.
Qed.

(** The pair rotation of [pred], seen from the inside: a chain built with
    the rotating step on the constant seed becomes, once it is handed [f],
    a chain of the same length built with [f] on [x]. *)
Lemma pred_step_chain : forall k f x a,
  numeral_chain k (L_pred_step f) (L_pred_const x) a ->
  numeral_chain k f x (name_call a f).
Proof.
  induction k as [|k IH]; intros f x a H; cbn [numeral_chain] in *.
  - apply equiv_trans with (name_call (L_pred_const x) f).
    + apply equiv_call_cong. exact H.
    + apply equiv_call_value. intros st. exists 1. reflexivity.
  - destruct H as (a1 & Ha & Hk). exists (name_call a1 f). split.
    + apply equiv_trans with (name_call (name_call (L_pred_step f) a1) f).
      * apply equiv_call_cong. exact Ha.
      * apply equiv_call_value. intros st. exists 3. reflexivity.
    + apply IH. exact Hk.
Qed.

Lemma pred_numeral : forall k n,
  behaves_as_numeral k n ->
  behaves_as_numeral (Nat.pred k) (name_call combinators.pred n).
Proof.
  intros k n H f x.
  exists (name_call (name_call (name_call n (L_pred_step f)) (L_pred_const x))
                    L_pred_id).
  split; [intros st; exists 4; reflexivity|].
  destruct (H (L_pred_step f) (L_pred_const x)) as (d & Hd & Hk).
  apply numeral_chain_equiv with (name_call d L_pred_id).
  { apply equiv_call_cong. apply equiv_call_value. exact Hd. }
  destruct k as [|k]; cbn [Nat.pred numeral_chain] in *.
  - apply equiv_trans with (name_call (L_pred_const x) L_pred_id).
    + apply equiv_call_cong. exact Hk.
    + apply equiv_call_value. intros st. exists 1. reflexivity.
  - destruct Hk as (a & Ha & Hk).
    apply numeral_chain_equiv with (name_call a f); [|apply pred_step_chain; exact Hk].
    apply equiv_trans with (name_call (name_call (L_pred_step f) a) L_pred_id).
    + apply equiv_call_cong. exact Ha.
    + apply equiv_trans with (name_call L_pred_id (name_call a f)).
      * apply equiv_call_value. intros st. exists 3. reflexivity.
      * apply equiv_call_value. intros st. exists 1. reflexivity.
Qed.

Lemma iter_pred_numeral : forall j k n,
  behaves_as_numeral k n ->
  behaves_as_numeral (k - j) (Nat.iter j (name_call combinators.pred) n).
Proof.
  induction j as [|j IH]; intros k n H.
  - rewrite Nat.sub_0_r. exact H.
  - rewrite Nat.sub_succ_r, Nat.iter_succ. apply pred_numeral, IH, H.
Qed.

Lemma sub_unfolds : forall a m,
  equiv (name_call (name_call combinators.sub a) (church_encode m))
        (Nat.iter (N.to_nat m) (name_call combinators.pred) a).
Proof.
  intros a m.
  apply equiv_trans
    with (name_call (name_call (church_encode m) combinators.pred) a).
  - apply equiv_call_value. intros st. exists 3. reflexivity.
  - apply equiv_call_value. intros st. exists 3.
    rewrite <- church_loop_nat. reflexivity.
Qed.

Lemma sub_numeral : forall n m,
  behaves_as_numeral (N.to_nat n - N.to_nat m)
    (name_call (name_call combinators.sub (church_encode n)) (church_encode m)).
Proof.
  intros n m. eapply behaves_as_numeral_equiv; [apply sub_unfolds|].
  apply iter_pred_numeral, church_encode_numeral.
Qed.

Lemma church_decode_mono : forall fuel fuel' n st res,
  church_decode fuel n st = Some res ->
  fuel <= fuel' ->
  church_decode fuel' n st = Some res.
Proof.
  intros fuel fuel' n st res H Hle. unfold church_decode, bind in *.
  repeat mono_step (@pass_by_value_mono fuel) Hle. exact H.
Qed.

Lemma church_decode_evals : forall n st r1 st1 r2 st2 r3 st3,
  evals n L_count (Frames 0 (result st)) r1 st1 ->
  evals r1 combinators.I st1 r2 st2 ->
  evals r2 combinators.I st2 r3 st3 ->
  exists fuel, church_decode fuel n st = Some (decoded st3, st3).
Proof.
  intros n st r1 st1 r2 st2 r3 st3 [n1 H1] [n2 H2] [n3 H3].
  exists (n1 + n2 + n3). unfold church_decode, bind.
  rewrite (pass_by_value_mono (fuel' := n1 + n2 + n3) _ _ _ H1) by lia.
  rewrite (pass_by_value_mono (fuel' := n1 + n2 + n3) _ _ _ H2) by lia.
  rewrite (pass_by_value_mono (fuel' := n1 + n2 + n3) _ _ _ H3) by lia.
  reflexivity.
Qed.

(** Forcing a chain built with the counting lambda on [I] counts its length. *)
Lemma count_numeral_chain : forall k d dd out,
  numeral_chain k L_count combinators.I d ->
  evals d combinators.I (Frames dd out)
        combinators.I (Frames (Nat.iter k size_incr dd) out).
Proof.
  induction k as [|k IH]; intros d dd out H; cbn [numeral_chain] in H.
  - apply H. exists 1. reflexivity.
  - destruct H as (a & Ha & Hk). apply Ha.
    eapply evals_call; [exists 1; reflexivity|].
    rewrite Nat.iter_succ_r. apply IH. exact Hk.
Qed.

(** [church_decode] returns [k] on whatever behaves as the numeral [k]. *)
Lemma church_decode_numeral : forall k n st,
  behaves_as_numeral k n ->
  (N.of_nat k < size_modulus)%N ->
  exists fuel,
    church_decode fuel n st = Some (N.of_nat k, Frames (N.of_nat k) (result st)).
Proof.
  intros k n st H Hk.
  destruct (H L_count combinators.I) as (d & Hd & Hc).
  destruct (evals_call_inv (Hd (Frames 0 (result st)))) as (r1 & st1 & H1 & H2).
  pose proof (@count_numeral_chain k d 0%N (result st) Hc) as H3.
  rewrite iter_size_incr in H3 by lia. rewrite N.add_0_l in H3.
  exact (@church_decode_evals n st _ _ _ _ _ _ H1 H2 H3).
Qed.

(** [is_zero] on whatever behaves as the numeral [k] selects the first of
    its two further arguments when [k] is 0 and the second otherwise. *)
Lemma is_zero_numeral : forall k n x y st,
  behaves_as_numeral k n ->
  exists r,
    evals (name_call combinators.is_zero n) x st r st /\
    evals r y st (match k with O => x | _ => y end) st.
Proof.
  intros k n x y st H.
  destruct (H L_is_zero_x combinators.truth) as (d & Hd & Hk).
  destruct k as [|k]; cbn [numeral_chain] in Hk.
  - exists (L_truth_x x). split; [|exists 1; reflexivity].
    eapply evals_call; [exists 1; reflexivity|].
    eapply evals_call; [apply Hd|]. apply Hk. exists 1. reflexivity.
  - destruct Hk as (a & Ha & _).
    exists L_falsity_x. split; [|exists 1; reflexivity].
    eapply evals_call; [exists 1; reflexivity|].
    eapply evals_call; [apply Hd|]. apply Ha. exists 3. reflexivity.
Qed.

(** For all naturals, [sub] is the truncated subtraction. *)
Lemma church_decode_sub : forall n m st,
  (n < size_modulus)%N ->
  exists fuel,
    church_decode fuel
      (name_call (name_call combinators.sub (church_encode n)) (church_encode m)) st =
    Some ((n - m)%N, Frames (n - m) (result st)).
Proof.
  intros n m st Hn.
  replace (n - m)%N with (N.of_nat (N.to_nat n - N.to_nat m)) by lia.
  apply church_decode_numeral; [apply sub_numeral | lia].
Qed.

(** C6. [sub(church_encode(5))(church_encode(2))] decodes to 3.  The
    predecessor of Church 0 behaves as Church 0: it decodes to 0 and
    [is_zero] of it selects the first of two further arguments, as [truth]
    does.  And for all naturals [n < m], [sub(church_encode(n))(church_encode(m))]
    behaves as 0: [is_zero] of it, value-called with [x] and then [y],
    returns [x], and it decodes to 0. *)
Theorem sub_saturates_at_zero :
  (forall st fuel, 11 <= fuel ->
     church_decode fuel
       (name_call (name_call combinators.sub (church_encode 5)) (church_encode 2)) st =
     Some (3%N, Frames 3 (result st))) /\
  (forall st x y,
     (exists fuel,
        church_decode fuel (name_call combinators.pred (church_encode 0)) st =
        Some (0%N, Frames 0 (result st))) /\
     (exists r,
        evals (name_call combinators.is_zero
                 (name_call combinators.pred (church_encode 0))) x st r st /\
        evals r y st x st)) /\
  (forall n m : N, (n < m)%N ->
     forall st x y,
       (exists r,
          evals (name_call combinators.is_zero
                   (name_call (name_call combinators.sub (church_encode n))
                              (church_encode m))) x st r st /\
          evals r y st x st) /\
       (exists fuel,
          church_decode fuel
            (name_call (name_call combinators.sub (church_encode n))
                       (church_encode m)) st =
          Some (0%N, Frames 0 (result st)))).
Proof.
  split; [|split].
  - intros st fuel Hle. apply church_decode_mono with (fuel := 11); [|exact Hle].
    reflexivity.
  - intros st x y. split.
    + exists 7. reflexivity.
    + apply (is_zero_numeral x y st (pred_numeral (church_encode_numeral 0))).
  - intros n m Hlt st x y.
    pose proof (sub_numeral n m) as H.
    replace (N.to_nat n - N.to_nat m) with 0 in H by lia. split.
    + apply (is_zero_numeral x y st H).
    + apply (church_decode_numeral st H). reflexivity.
Qed.

(** The saturation at [n = 2], [m = 5]. *)
Lemma sub_saturates_at_zero_witness :
  (2 < 5)%N /\
  exists fuel,
    church_decode fuel
      (name_call (name_call combinators.sub (church_encode 2)) (church_encode 5))
      (Frames 0 []) = Some (0%N, Frames 0 []).
Proof.
  split; [reflexivity|].
  destruct sub_saturates_at_zero as (_ & _ & H).
  destruct (H 2%N 5%N eq_refl (Frames 0 []) combinators.I combinators.I) as [_ Hd].
  exact Hd.
Defined.

(** * The pipeline *)

Lemma scott_decode_mono : forall fuel fuel' list st res,
  scott_decode fuel list st = Some res ->
  fuel <= fuel' ->
  scott_decode fuel' list st = Some res.
Proof.
  intros fuel fuel' list st res H Hle. unfold scott_decode, bind in *.
  repeat mono_step (@pass_by_value_mono fuel) Hle. exact H.
Qed.

Lemma transform_church_decode_mono : forall fuel fuel' l st res,
  transform (church_decode fuel) l st = Some res ->
  fuel <= fuel' ->
  transform (church_decode fuel') l st = Some res.
Proof.
  intros fuel fuel' l. induction l as [|a l IH]; intros st res H Hle.
  - exact H.
  - cbn [transform] in *. unfold bind in *.
    destruct (church_decode fuel a st) as [[b st1]|] eqn:E; [|discriminate].
    rewrite (church_decode_mono _ _ E Hle).
    destruct (transform (church_decode fuel) l st1) as [[bs st2]|] eqn:E2;
      [|discriminate].
    rewrite (IH _ _ E2 Hle). exact H.
Qed.

Lemma run_on_integer_sequence_mono : forall fuel fuel' input program out res,
  run_on_integer_sequence fuel input program out = Some res ->
  fuel <= fuel' ->
  run_on_integer_sequence fuel' input program out = Some res.
Proof.
  intros fuel fuel' input program out res H Hle.
  unfold run_on_integer_sequence in *.
  destruct (scott_decode fuel _ _) as [[u st]|] eqn:E; [|discriminate].
  rewrite (scott_decode_mono _ _ E Hle).
  destruct (transform (church_decode fuel) (result st) st) as [[ns st']|] eqn:E2;
    [|discriminate].
  rewrite (transform_church_decode_mono _ _ E2 Hle). exact H.
Qed.

(** C8. [run_on_integer_sequence] on the input [3, 1, 4] with the program
    [I] returns, at every depth bound from 16 on, and has then appended
    exactly 3, 1, 4 to the output. *)
Theorem run_identity_program : forall (fuel : nat) (out : list N),
  16 <= fuel ->
  run_on_integer_sequence fuel [3; 1; 4]%N combinators.I out =
  Some (out ++ [3; 1; 4]%N).
Proof.
  intros fuel out Hle.
  apply run_on_integer_sequence_mono with (fuel := 16); [|exact Hle].
  reflexivity.
Qed.

(** The run at the depth bound 16, on an empty output. *)
Lemma run_identity_program_witness :
  run_on_integer_sequence 16 [3; 1; 4]%N combinators.I [] = Some [3; 1; 4]%N.
Proof.
  apply (@run_identity_program 16 []). lia.
Defined.

(** * The counter of church_decode *)

Lemma sink_parametric_ret : forall A (a : A), sink_parametric (ret a).
Proof.
  intros A a st a' st' H. unfold ret in *. injection H as <- <-.
  exists []. split; [symmetry; apply app_nil_r|].
  intros o. rewrite app_nil_r. reflexivity.
Qed.

Lemma sink_parametric_bind : forall A B (m : M A) (k : A -> M B),
  sink_parametric m ->
  (forall a, sink_parametric (k a)) ->
  sink_parametric (bind m k).
Proof.
  intros A B m k Hm Hk st b st' H. unfold bind in *.
  destruct (m st) as [[a st1]|] eqn:E; [|discriminate].
  destruct (Hm _ _ _ E) as (d1 & R1 & P1).
  destruct (Hk a _ _ _ H) as (d2 & R2 & P2).
  exists (d1 ++ d2). split.
  - rewrite R2, R1. symmetry. apply app_assoc.
  - intros o. rewrite P1. cbn [decoded] in P2.
    specialize (P2 (o ++ d1)). cbn [decoded] in P2.
    rewrite app_assoc. exact P2.
Qed.

Lemma sink_parametric_emit : forall e, sink_parametric (emit e).
Proof.
  intros e st a st' H. unfold emit in *. injection H as <- <-.
  exists [e]. split; reflexivity.
Qed.

Lemma sink_parametric_incr : sink_parametric incr_decoded.
Proof.
  intros st a st' H. unfold incr_decoded in *. injection H as <- <-.
  exists []. split; [symmetry; apply app_nil_r|].
  intros o. rewrite app_nil_r. reflexivity.
Qed.

Lemma sink_parametric_get : sink_parametric get_decoded.
Proof.
  intros st a st' H. unfold get_decoded in *. injection H as <- <-.
  exists []. split; [symmetry; apply app_nil_r|].
  intros o. rewrite app_nil_r. reflexivity.
Qed.

Lemma sink_parametric_out_of_depth : forall A, sink_parametric (@out_of_depth A).
Proof. intros A st a st' H. discriminate H. Qed.

Lemma pass_by_value_sink_parametric : forall fuel this arg,
  sink_parametric (pass_by_value fuel this arg).
Proof.
  induction fuel as [|fuel IH]; intros this arg.
  - apply sink_parametric_out_of_depth.
  - destruct this; cbn [pass_by_value];
      repeat first
        [ apply sink_parametric_ret
        | apply sink_parametric_incr
        | apply sink_parametric_emit
        | apply IH
        | apply sink_parametric_bind; [|intros ?] ].
Qed.

Lemma no_output_church_loop : forall n f x,
  no_output f = true -> no_output x = true ->
  no_output (church_loop n f x) = true.
Proof.
  intros n f x Hf Hx. rewrite church_loop_nat.
  induction (N.to_nat n) as [|k IH]; [exact Hx|].
  rewrite Nat.iter_succ. cbn [name_call no_output]. rewrite IH, Hf. reflexivity.
Qed.

(** Value calls among expressions without closures of [scott_decode] stay
    among them and leave the output iterator alone. *)
Lemma pass_by_value_no_output : forall fuel this arg st r st',
  no_output this = true -> no_output arg = true ->
  pass_by_value fuel this arg st = Some (r, st') ->
  no_output r = true /\ result st' = result st.
Proof.
  induction fuel as [|fuel IH]; intros this arg st r st' Ht Ha H; [discriminate|].
  destruct this; cbn [no_output] in Ht; try discriminate Ht;
    try (apply andb_prop in Ht; destruct Ht as [Ht1 Ht2]);
    cbn [pass_by_value] in H; unfold_monad;
    try (injection H as <- <-; split; [|reflexivity];
         cbn [no_output name_call Y_body church_encode
              combinators.S combinators.K combinators.succ combinators.pred
              combinators.add combinators.truth combinators.falsity];
         rewrite ?Ht, ?Ht1, ?Ht2, ?Ha; try reflexivity;
         apply no_output_church_loop; assumption).
  destruct (pass_by_value fuel this2 this1 st) as [[r1 st1]|] eqn:E; [|discriminate].
  destruct (IH _ _ _ _ _ Ht2 Ht1 E) as [Hr1 Hs1].
  destruct (IH _ _ _ _ _ Hr1 Ha H) as [Hr Hs].
  split; [exact Hr | congruence].
Qed.

(** C9. [church_decode] starts its counter at 0 whatever the counter held
    before the call, and what it returns does not depend on anything an
    earlier call left behind: when a call on [n] returns [c], the same call
    started with any other previous counter value returns [c] in the same
    state, and a second call on the same [n], made in the state the first
    one left, returns [c] again.  The call changes nothing but its own
    counter: on an expression without closures of [scott_decode] the output
    iterator has received nothing. *)
Theorem church_decode_repeatable :
  forall (fuel : nat) (n : expression) (st st1 : frames) (c : N),
    church_decode fuel n st = Some (c, st1) ->
    (forall d, church_decode fuel n (Frames d (result st)) = Some (c, st1)) /\
    (exists st2, church_decode fuel n st1 = Some (c, st2)) /\
    (no_output n = true -> result st1 = result st).
Proof.
  intros fuel n st st1 c H. split; [intros d; exact H|].
  unfold church_decode in *. split.
  - assert (Hsp : sink_parametric
              (r1 <- pass_by_value fuel n L_count ;;
               r2 <- pass_by_value fuel r1 combinators.I ;;
               _ <- pass_by_value fuel r2 combinators.I ;;
               get_decoded)).
    { repeat first
        [ apply pass_by_value_sink_parametric
        | apply sink_parametric_get
        | apply sink_parametric_bind; [|intros ?] ]. }
    destruct (Hsp _ _ _ H) as (delta & _ & P).
    eexists. apply (P (result st1)).
  - intros Hn. unfold_monad.
    destruct (pass_by_value fuel n L_count _) as [[r1 s1]|] eqn:E1; [|discriminate].
    destruct (pass_by_value fuel r1 combinators.I s1) as [[r2 s2]|] eqn:E2;
      [|discriminate].
    destruct (pass_by_value fuel r2 combinators.I s2) as [[r3 s3]|] eqn:E3;
      [|discriminate].
    injection H as _ <-.
    destruct (@pass_by_value_no_output _ _ L_count _ _ _ Hn eq_refl E1) as [N1 S1].
    destruct (@pass_by_value_no_output _ _ combinators.I _ _ _ N1 eq_refl E2) as [N2 S2].
    destruct (@pass_by_value_no_output _ _ combinators.I _ _ _ N2 eq_refl E3) as [_ S3].
    rewrite S3, S2, S1. reflexivity.
Qed.

(** Two calls on [church_encode 3], the first one started with a counter
    that held 7. *)
Lemma church_decode_repeatable_witness :
  church_decode 5 (church_encode 3) (Frames 7 []) = Some (3%N, Frames 3 []) /\
  exists st2,
    church_decode 5 (church_encode 3) (Frames 3 []) = Some (3%N, st2).
Proof.
  split; [reflexivity|].
  apply (@church_decode_repeatable 5 (church_encode 3) (Frames 7 []) (Frames 3 []) 3%N).
  reflexivity.
Defined.

(** * The fixed-point combinator *)

Create HintDb rel.
#[local] Hint Constructors Y_related : rel.

Lemma Y_related_refl : forall e, Y_related e e.
Proof. induction e; auto with rel. Qed.

Lemma Y_related_sym : forall a b, Y_related a b -> Y_related b a.
Proof. induction 1; auto with rel. Qed.

Lemma church_loop_related : forall n f f' x x',
  Y_related f f' -> Y_related x x' ->
  Y_related (church_loop n f x) (church_loop n f' x').
Proof.
  intros n f f' x x' Hf Hx. rewrite !church_loop_nat.
  induction (N.to_nat n) as [|k IH]; [exact Hx|].
  rewrite !Nat.iter_succ. apply rel_call; assumption.
Qed.

#[local] Hint Resolve Y_related_refl church_loop_related : rel.

Ltac unfold_terms :=
  unfold Y_body, church_encode, combinators.truth,
    combinators.falsity, combinators.Y, combinators.I, combinators.K,
    combinators.S, combinators.succ, combinators.pred, combinators.add,
    combinators.is_empty, combinators.empty_list, combinators.car,
    combinators.cdr in *;
  unfold name_call in *.

Ltac sim_pure H Hs :=
  injection H as <- <-;
  eexists; eexists;
  split; [exists 1; reflexivity | split; [unfold_terms; auto 6 with rel | exact Hs]].

Lemma Y_related_simulation_depth :
  forall fuel this this' arg arg' st st' r st1,
    Y_related this this' -> Y_related arg arg' ->
    frames_related Y_related st st' ->
    pass_by_value fuel this arg st = Some (r, st1) ->
    exists r' st1',
      evals this' arg' st' r' st1' /\ Y_related r r' /\
      frames_related Y_related st1 st1'.
Proof.
  induction fuel as [|fuel IH]; intros this this' arg arg' st st' r st1 Ht Ha Hs H;
    [discriminate|].
  destruct Ht; cbn [pass_by_value] in H; unfold_monad;
    try (sim_pure H Hs; fail).
  - (* a deferred call *)
    destruct (pass_by_value fuel this arg0 st) as [[r1 s1]|] eqn:E; [|discriminate].
    destruct (IH _ _ _ _ _ _ _ _ Ht2 Ht1 Hs E) as (r1' & s1' & E' & Hr1 & Hs1).
    destruct (IH _ _ _ _ _ _ _ _ Hr1 Ha Hs1 H) as (r' & s' & H' & Hr & Hs').
    exists r', s'. split; [|split; assumption].
    eapply evals_call; eassumption.
  - (* the counting lambda *)
    injection H as <- <-.
    exists arg', {| decoded := size_incr (decoded st'); result := result st' |}.
    destruct Hs as [Hd Hr].
    split; [exists 1; reflexivity|]. split; [exact Ha|].
    split; cbn [decoded result]; [rewrite Hd; reflexivity | exact Hr].
  - (* _output_list: [&result, f](l) *)
    destruct (pass_by_value fuel combinators.is_empty arg st) as [[r1 s1]|] eqn:E1;
      [|discriminate].
    destruct (pass_by_value fuel r1 combinators.empty_list s1) as [[r2 s2]|] eqn:E2;
      [|discriminate].
    destruct (IH _ _ _ _ _ _ _ _ (Y_related_refl _) Ha Hs E1)
      as (r1' & s1' & E1' & Hr1 & Hs1).
    destruct (IH _ _ _ _ _ _ _ _ Hr1 (Y_related_refl _) Hs1 E2)
      as (r2' & s2' & E2' & Hr2 & Hs2).
    destruct (IH _ _ _ _ _ _ _ _ Hr2 (rel_output_list_lf Ha Ht) Hs2 H)
      as (r' & s' & H' & Hr & Hs').
    exists r', s'. split; [|split; assumption].
    eapply evals_output_list_f; eassumption.
  - (* _output_list: [&result, l, f](_) *)
    destruct (pass_by_value fuel combinators.car l st) as [[c s1]|] eqn:E1;
      [|discriminate].
    destruct (pass_by_value fuel combinators.cdr l _) as [[d s2]|] eqn:E2;
      [|discriminate].
    destruct (pass_by_value fuel f d s2) as [[r1 s3]|] eqn:E3; [|discriminate].
    destruct (IH _ _ _ _ _ _ _ _ (Y_related_refl _) Ht1 Hs E1)
      as (c' & s1' & E1' & Hc & Hs1).
    assert (Hs1e : frames_related Y_related
                     {| decoded := decoded s1; result := result s1 ++ [c] |}
                     {| decoded := decoded s1'; result := result s1' ++ [c'] |}).
    { destruct Hs1 as [Hd Hr]. split; cbn [decoded result]; [exact Hd|].
      apply Forall2_app; [exact Hr | constructor; [exact Hc | constructor]]. }
    destruct (IH _ _ _ _ _ _ _ _ (Y_related_refl _) Ht1 Hs1e E2)
      as (d' & s2' & E2' & Hd & Hs2).
    destruct (IH _ _ _ _ _ _ _ _ Ht2 Hd Hs2 E3) as (r1' & s3' & E3' & Hr1 & Hs3).
    destruct (IH _ _ _ _ _ _ _ _ Hr1 Ha Hs3 H) as (r' & s' & H' & Hr & Hs').
    exists r', s'. split; [|split; assumption].
    eapply evals_output_list_lf; eassumption.
  - (* Y(f) against f(Y(f)) *)
    destruct fuel as [|fuel1]; [discriminate|].
    change (pass_by_value (Datatypes.S fuel1) (L_call (L_call (L_Y_x f) (L_Y_x f)) f)
              arg st = Some (r, st1)) in H.
    exact (IH _ _ _ _ _ _ _ _
              (rel_call (rel_self_application Ht) Ht) Ha Hs H).
  - (* f(Y(f)) against Y(f) *)
    destruct (pass_by_value fuel f (L_call f L_Y) st) as [[r1 s1]|] eqn:E1;
      [|discriminate].
    destruct (IH _ _ _ _ _ _ _ _ Ht (rel_self_application_sym Ht) Hs E1)
      as (r1' & s1' & E1' & Hr1 & Hs1).
    destruct (IH _ _ _ _ _ _ _ _ Hr1 Ha Hs1 H) as (r' & s' & H' & Hr & Hs').
    exists r', s'. split; [|split; assumption].
    eapply evals_call; [exists 1; reflexivity|].
    eapply evals_call; eassumption.
  - (* x(x) against Y(f) *)
    destruct fuel as [|fuel1]; [discriminate|].
    change (pass_by_value (Datatypes.S fuel1) (L_call (L_call (L_Y_x f) (L_Y_x f)) f)
              arg st = Some (r, st1)) in H.
    destruct (IH _ _ _ _ _ _ _ _
                (rel_call (rel_call (rel_Y_x Ht) (rel_Y_x Ht)) Ht) Ha Hs H)
      as (r' & s' & H' & Hr & Hs').
    exists r', s'. split; [|split; assumption].
    eapply evals_call; [exists 1; reflexivity | exact H'].
  - (* Y(f) against x(x) *)
    destruct fuel as [|fuel1]; [discriminate|].
    change (pass_by_value (Datatypes.S fuel1) (L_call (L_call (L_Y_x f) (L_Y_x f)) f)
              arg st = Some (r, st1)) in H.
    destruct (IH _ _ _ _ _ _ _ _
                (rel_call (rel_call (rel_Y_x Ht) (rel_Y_x Ht)) Ht) Ha Hs H)
      as (r' & s' & H' & Hr & Hs').
    exists r', s'. split; [|split; assumption].
    eapply evals_call; [exists 1; reflexivity | exact H'].
Qed.

Lemma Y_related_simulation : simulation Y_related.
Proof.
  intros this this' arg arg' st st' r st1 Ht Ha Hs [fuel H].
  eapply Y_related_simulation_depth; eassumption.
Qed.

Lemma frames_related_refl : forall (R : expression -> expression -> Prop) st,
  (forall e, R e e) -> frames_related R st st.
Proof.
  intros R st HR. split; [reflexivity|].
  induction (result st); constructor; auto.
Qed.

(** Expressions that behave the same return together, and decode to the
    same number. *)
Lemma bisimilar_returns : forall a b x st,
  bisimilar a b ->
  (exists r st1, evals a x st r st1) <-> (exists r st1, evals b x st r st1).
Proof.
  intros a b x st (R & Hrefl & Hsym & Hsim & Hab). split; intros (r & st1 & H).
  - destruct (Hsim _ _ _ _ _ _ _ _ Hab (Hrefl x) (@frames_related_refl R st Hrefl) H)
      as (r' & st1' & H' & _). exists r', st1'. exact H'.
  - destruct (Hsim _ _ _ _ _ _ _ _ (Hsym _ _ Hab) (Hrefl x)
                (@frames_related_refl R st Hrefl) H)
      as (r' & st1' & H' & _). exists r', st1'. exact H'.
Qed.

Lemma bisimilar_church_decode : forall a b fuel st c st1,
  bisimilar a b ->
  church_decode fuel a st = Some (c, st1) ->
  exists fuel' st1', church_decode fuel' b st = Some (c, st1').
Proof.
  intros a b fuel st c st1 (R & Hrefl & Hsym & Hsim & Hab) H.
  unfold church_decode in H. unfold_monad.
  destruct (pass_by_value fuel a L_count _) as [[r1 s1]|] eqn:E1; [|discriminate].
  destruct (pass_by_value fuel r1 combinators.I s1) as [[r2 s2]|] eqn:E2;
    [|discriminate].
  destruct (pass_by_value fuel r2 combinators.I s2) as [[r3 s3]|] eqn:E3;
    [|discriminate].
  injection H as <- <-.
  destruct (Hsim _ _ _ _ _ _ _ _ Hab (Hrefl L_count)
              (@frames_related_refl R _ Hrefl) (ex_intro _ fuel E1))
    as (r1' & s1' & E1' & Hr1 & Hs1).
  destruct (Hsim _ _ _ _ _ _ _ _ Hr1 (Hrefl combinators.I) Hs1 (ex_intro _ fuel E2))
    as (r2' & s2' & E2' & Hr2 & Hs2).
  destruct (Hsim _ _ _ _ _ _ _ _ Hr2 (Hrefl combinators.I) Hs2 (ex_intro _ fuel E3))
    as (r3' & s3' & E3' & Hr3 & Hs3).
  destruct (@church_decode_evals b st _ _ _ _ _ _ E1' E2' E3') as [fuel' Hd].
  exists fuel', s3'. rewrite Hd. destruct Hs3 as [<- _]. reflexivity.
Qed.

(** C4. For every expression [f], [Y(f)] behaves the same as [f(Y(f))]:
    value-called with related arguments they return together, with results
    that again behave the same, and so on to any depth of further calls, with
    the same effect on the counter and on the output.  [Y] applied to [f]
    does not diverge: its value call returns at depth 1, without calling
    [f], the deferred call of [f] on the self application [x(x)]; and
    forcing [Y(f)] runs [f] once on that self application and then forces
    what [f] returned. *)
Theorem Y_fixed_point : forall f : expression,
  bisimilar (name_call combinators.Y f) (name_call f (name_call combinators.Y f)) /\
  (forall st,
     pass_by_value 1 combinators.Y f st =
     Some (name_call f (name_call (L_Y_x f) (L_Y_x f)), st)) /\
  (forall z st r st',
     evals (name_call combinators.Y f) z st r st' <->
     exists r1 st1,
       evals f (name_call (L_Y_x f) (L_Y_x f)) st r1 st1 /\ evals r1 z st1 r st').
Proof.
  intros f. split; [|split].
  - exists Y_related. split; [exact Y_related_refl|].
    split; [exact Y_related_sym|]. split; [exact Y_related_simulation|].
    apply rel_fixed_point. apply Y_related_refl.
  - intros st. reflexivity.
  - intros z st r st'. split.
    + intros H. apply evals_call_inv in H. destruct H as (r1 & st1 & H1 & H2).
      assert (E : evals combinators.Y f st (Y_body f (L_Y_x f)) st)
        by (exists 1; reflexivity).
      destruct (evals_det H1 E) as [-> ->].
      apply evals_call_inv in H2. exact H2.
    + intros (r1 & st1 & H1 & H2).
      eapply evals_call; [exists 1; reflexivity|].
      change (Y_body f (L_Y_x f))
        with (name_call f (name_call (L_Y_x f) (L_Y_x f))).
      eapply evals_call; eassumption.
Qed.

(** * Church arithmetic on whatever behaves as a numeral *)

(** The counter of [church_decode] wraps: [k] increments from below the
    modulus leave the sum modulo [2 ^ size_bits]. *)
Lemma iter_size_incr_mod : forall k d,
  (d < size_modulus)%N ->
  Nat.iter k size_incr d = ((d + N.of_nat k) mod size_modulus)%N.
Proof.
  induction k as [|k IH]; intros d Hd.
  - cbn [Nat.iter nat_rect N.of_nat]. rewrite N.add_0_r, N.mod_small by exact Hd.
    reflexivity.
  - rewrite Nat.iter_succ, IH by exact Hd. unfold size_incr.
    rewrite N.Div0.add_mod_idemp_l. f_equal. lia.
Qed.

Lemma church_decode_numeral_mod : forall k n st,
  behaves_as_numeral k n ->
  exists fuel,
    church_decode fuel n st =
    Some ((N.of_nat k mod size_modulus)%N,
          Frames (N.of_nat k mod size_modulus) (result st)).
Proof.
  intros k n st H.
  destruct (H L_count combinators.I) as (d & Hd & Hc).
  destruct (evals_call_inv (Hd (Frames 0 (result st)))) as (r1 & st1 & H1 & H2).
  pose proof (@count_numeral_chain k d 0%N (result st) Hc) as H3.
  rewrite iter_size_incr_mod in H3 by reflexivity. rewrite N.add_0_l in H3.
  exact (@church_decode_evals n st _ _ _ _ _ _ H1 H2 H3).
Qed.

Lemma succ_numeral : forall k n,
  behaves_as_numeral k n ->
  behaves_as_numeral (Datatypes.S k) (name_call combinators.succ n).
Proof.
  intros k n H f x.
  exists (name_call f (name_call (name_call n f) x)).
  split; [intros st; exists 4; reflexivity|].
  cbn [numeral_chain]. exists (name_call (name_call n f) x).
  split; [apply equiv_refl|].
  destruct (H f x) as (d & Hd & Hk).
  apply numeral_chain_equiv with d; [apply equiv_call_value; exact Hd | exact Hk].
Qed.

(** A chain of [a] deferred calls of [succ] on a numeral [b] is the numeral
    [a + b]. *)
Lemma succ_chain_numeral : forall a b m d,
  behaves_as_numeral b m ->
  numeral_chain a combinators.succ m d ->
  behaves_as_numeral (a + b) d.
Proof.
  induction a as [|a IH]; intros b m d Hm Hc; cbn [numeral_chain] in Hc.
  - eapply behaves_as_numeral_equiv; eassumption.
  - destruct Hc as (a1 & Ha1 & Hc).
    apply behaves_as_numeral_equiv with (name_call combinators.succ a1);
      [exact Ha1|].
    apply succ_numeral. eapply IH; eassumption.
Qed.

Lemma add_numeral : forall a b n m,
  behaves_as_numeral a n -> behaves_as_numeral b m ->
  behaves_as_numeral (a + b) (name_call (name_call combinators.add n) m).
Proof.
  intros a b n m Hn Hm.
  destruct (Hn combinators.succ m) as (d & Hd & Hc).
  apply behaves_as_numeral_equiv with d;
    [|eapply succ_chain_numeral; eassumption].
  apply equiv_trans with (name_call (name_call n combinators.succ) m).
  - apply equiv_call_value. intros st. exists 3. reflexivity.
  - apply equiv_call_value. exact Hd.
Qed.

(** A chain of [b] deferred calls of [pred] on a numeral [a] is the numeral
    [a - b], truncated at 0. *)
Lemma pred_chain_numeral : forall b a n d,
  behaves_as_numeral a n ->
  numeral_chain b combinators.pred n d ->
  behaves_as_numeral (a - b) d.
Proof.
  induction b as [|b IH]; intros a n d Hn Hc; cbn [numeral_chain] in Hc.
  - rewrite Nat.sub_0_r. eapply behaves_as_numeral_equiv; eassumption.
  - destruct Hc as (a1 & Ha1 & Hc).
    apply behaves_as_numeral_equiv with (name_call combinators.pred a1);
      [exact Ha1|].
    rewrite Nat.sub_succ_r. apply pred_numeral. eapply IH; eassumption.
Qed.

Lemma sub_numeral_general : forall a b n m,
  behaves_as_numeral a n -> behaves_as_numeral b m ->
  behaves_as_numeral (a - b) (name_call (name_call combinators.sub n) m).
Proof.
  intros a b n m Hn Hm.
  destruct (Hm combinators.pred n) as (d & Hd & Hc).
  apply behaves_as_numeral_equiv with d;
    [|eapply pred_chain_numeral; eassumption].
  apply equiv_trans with (name_call (name_call m combinators.pred) n).
  - apply equiv_call_value. intros st. exists 3. reflexivity.
  - apply equiv_call_value. exact Hd.
Qed.

(** A chain of [a] deferred calls of [add(m)] on Church 0 is the numeral
    [a * b]. *)
Lemma add_chain_numeral : forall a b m d,
  behaves_as_numeral b m ->
  numeral_chain a (name_call combinators.add m) (church_encode 0) d ->
  behaves_as_numeral (a * b) d.
Proof.
  induction a as [|a IH]; intros b m d Hm Hc; cbn [numeral_chain] in Hc.
  - eapply behaves_as_numeral_equiv; [exact Hc | exact (church_encode_numeral 0)].
  - destruct Hc as (a1 & Ha1 & Hc).
    apply behaves_as_numeral_equiv
      with (name_call (name_call combinators.add m) a1); [exact Ha1|].
    replace (Datatypes.S a * b) with (b + a * b) by lia.
    apply add_numeral; [exact Hm | eapply IH; eassumption].
Qed.

Lemma mult_numeral : forall a b n m,
  behaves_as_numeral a n -> behaves_as_numeral b m ->
  behaves_as_numeral (a * b) (name_call (name_call combinators.mult n) m).
Proof.
  intros a b n m Hn Hm.
  destruct (Hn (name_call combinators.add m) (church_encode 0)) as (d & Hd & Hc).
  apply behaves_as_numeral_equiv with d;
    [|eapply add_chain_numeral; eassumption].
  apply equiv_trans
    with (name_call (name_call n (name_call combinators.add m)) (church_encode 0)).
  - apply equiv_call_value. intros st. exists 3. reflexivity.
  - apply equiv_call_value. exact Hd.
Qed.

(** X7. [church_decode] counts modulo [2 ^ 64]: on any expression that
    behaves as the Church numeral [k] it returns [k mod 2 ^ 64], the counter
    being a [std::size_t] that wraps. *)
Theorem church_decode_wraps : forall (k : nat) (n : expression) (st : frames),
  behaves_as_numeral k n ->
  exists fuel,
    church_decode fuel n st =
    Some ((N.of_nat k mod size_modulus)%N,
          Frames (N.of_nat k mod size_modulus) (result st)).
Proof. intros k n st H. apply church_decode_numeral_mod. exact H. Qed.

(** At the boundary: the successor of the largest [std::size_t] decodes
    to 0. *)
Lemma church_decode_wraps_witness :
  exists fuel,
    church_decode fuel
      (name_call combinators.succ (church_encode (size_modulus - 1)))
      (Frames 0 []) = Some (0%N, Frames 0 []).
Proof.
  destruct (@church_decode_wraps
              (Datatypes.S (N.to_nat (size_modulus - 1)))
              (name_call combinators.succ (church_encode (size_modulus - 1)))
              (Frames 0 [])
              (succ_numeral (church_encode_numeral (size_modulus - 1))))
    as [fuel H].
  exists fuel. rewrite H.
  rewrite Nat2N.inj_succ, N2Nat.id. reflexivity.
Defined.

(** X1. [succ] on an expression that behaves as the numeral [k] behaves as
    the numeral [k + 1], and decodes to [(k + 1) mod 2 ^ 64]. *)
Theorem succ_of_numeral : forall (k : nat) (n : expression),
  behaves_as_numeral k n ->
  behaves_as_numeral (Datatypes.S k) (name_call combinators.succ n) /\
  forall st, exists fuel,
    church_decode fuel (name_call combinators.succ n) st =
    Some ((N.of_nat (Datatypes.S k) mod size_modulus)%N,
          Frames (N.of_nat (Datatypes.S k) mod size_modulus) (result st)).
Proof.
  intros k n H. split; [apply succ_numeral; exact H|].
  intros st. apply church_decode_numeral_mod, succ_numeral, H.
Qed.

Lemma succ_of_numeral_witness :
  behaves_as_numeral 3 (name_call combinators.succ (church_encode 2)) /\
  forall st, exists fuel,
    church_decode fuel (name_call combinators.succ (church_encode 2)) st =
    Some ((N.of_nat 3 mod size_modulus)%N,
          Frames (N.of_nat 3 mod size_modulus) (result st)).
Proof.
  apply (@succ_of_numeral 2 (church_encode 2)). exact (church_encode_numeral 2).
Defined.

(** X2. [pred] on an expression that behaves as the numeral [k] behaves as
    the numeral [k - 1] (0 for [k = 0]), and decodes to it. *)
Theorem pred_of_numeral : forall (k : nat) (n : expression),
  behaves_as_numeral k n ->
  behaves_as_numeral (Nat.pred k) (name_call combinators.pred n) /\
  forall st, exists fuel,
    church_decode fuel (name_call combinators.pred n) st =
    Some ((N.of_nat (Nat.pred k) mod size_modulus)%N,
          Frames (N.of_nat (Nat.pred k) mod size_modulus) (result st)).
Proof.
  intros k n H. split; [apply pred_numeral; exact H|].
  intros st. apply church_decode_numeral_mod, pred_numeral, H.
Qed.

Lemma pred_of_numeral_witness :
  behaves_as_numeral 2 (name_call combinators.pred (church_encode 3)) /\
  forall st, exists fuel,
    church_decode fuel (name_call combinators.pred (church_encode 3)) st =
    Some ((N.of_nat 2 mod size_modulus)%N,
          Frames (N.of_nat 2 mod size_modulus) (result st)).
Proof.
  apply (@pred_of_numeral 3 (church_encode 3)). exact (church_encode_numeral 3).
Defined.

(** X3. [add] on expressions that behave as the numerals [a] and [b]
    behaves as the numeral [a + b], and decodes to [(a + b) mod 2 ^ 64]. *)
Theorem add_of_numerals : forall (a b : nat) (n m : expression),
  behaves_as_numeral a n -> behaves_as_numeral b m ->
  behaves_as_numeral (a + b) (name_call (name_call combinators.add n) m) /\
  forall st, exists fuel,
    church_decode fuel (name_call (name_call combinators.add n) m) st =
    Some ((N.of_nat (a + b) mod size_modulus)%N,
          Frames (N.of_nat (a + b) mod size_modulus) (result st)).
Proof.
  intros a b n m Hn Hm. split; [apply add_numeral; assumption|].
  intros st. apply church_decode_numeral_mod, add_numeral; assumption.
Qed.

Lemma add_of_numerals_witness :
  behaves_as_numeral 5
    (name_call (name_call combinators.add (church_encode 2)) (church_encode 3)) /\
  forall st, exists fuel,
    church_decode fuel
      (name_call (name_call combinators.add (church_encode 2)) (church_encode 3)) st =
    Some ((N.of_nat 5 mod size_modulus)%N,
          Frames (N.of_nat 5 mod size_modulus) (result st)).
Proof.
  apply (@add_of_numerals 2 3 (church_encode 2) (church_encode 3)).
  - exact (church_encode_numeral 2).
  - exact (church_encode_numeral 3).
Defined.

(** X4. [sub] on expressions that behave as the numerals [a] and [b]
    behaves as the numeral [a - b], truncated at 0, and decodes to it. *)
Theorem sub_of_numerals : forall (a b : nat) (n m : expression),
  behaves_as_numeral a n -> behaves_as_numeral b m ->
  behaves_as_numeral (a - b) (name_call (name_call combinators.sub n) m) /\
  forall st, exists fuel,
    church_decode fuel (name_call (name_call combinators.sub n) m) st =
    Some ((N.of_nat (a - b) mod size_modulus)%N,
          Frames (N.of_nat (a - b) mod size_modulus) (result st)).
Proof.
  intros a b n m Hn Hm. split; [apply sub_numeral_general; assumption|].
  intros st. apply church_decode_numeral_mod, sub_numeral_general; assumption.
Qed.

Lemma sub_of_numerals_witness :
  behaves_as_numeral 4
    (name_call (name_call combinators.sub (church_encode 7)) (church_encode 3)) /\
  forall st, exists fuel,
    church_decode fuel
      (name_call (name_call combinators.sub (church_encode 7)) (church_encode 3)) st =
    Some ((N.of_nat 4 mod size_modulus)%N,
          Frames (N.of_nat 4 mod size_modulus) (result st)).
Proof.
  apply (@sub_of_numerals 7 3 (church_encode 7) (church_encode 3)).
  - exact (church_encode_numeral 7).
  - exact (church_encode_numeral 3).
Defined.

(** X5. [mult] on expressions that behave as the numerals [a] and [b]
    behaves as the numeral [a * b], and decodes to [(a * b) mod 2 ^ 64]. *)
Theorem mult_of_numerals : forall (a b : nat) (n m : expression),
  behaves_as_numeral a n -> behaves_as_numeral b m ->
  behaves_as_numeral (a * b) (name_call (name_call combinators.mult n) m) /\
  forall st, exists fuel,
    church_decode fuel (name_call (name_call combinators.mult n) m) st =
    Some ((N.of_nat (a * b) mod size_modulus)%N,
          Frames (N.of_nat (a * b) mod size_modulus) (result st)).
Proof.
  intros a b n m Hn Hm. split; [apply mult_numeral; assumption|].
  intros st. apply church_decode_numeral_mod, mult_numeral; assumption.
Qed.

Lemma mult_of_numerals_witness :
  behaves_as_numeral 12
    (name_call (name_call combinators.mult (church_encode 3)) (church_encode 4)) /\
  forall st, exists fuel,
    church_decode fuel
      (name_call (name_call combinators.mult (church_encode 3)) (church_encode 4)) st =
    Some ((N.of_nat 12 mod size_modulus)%N,
          Frames (N.of_nat 12 mod size_modulus) (result st)).
Proof.
  apply (@mult_of_numerals 3 4 (church_encode 3) (church_encode 4)).
  - exact (church_encode_numeral 3).
  - exact (church_encode_numeral 4).
Defined.

(** X6. [is_zero] on an expression that behaves as the numeral [k],
    value-called with [x] and then [y], returns [x] when [k] is 0 and [y]
    otherwise, without effect; the same choice given by name calls cannot
    be told from [x], respectively [y]. *)
Theorem is_zero_of_numeral :
  forall (k : nat) (n x y : expression) (st : frames),
    behaves_as_numeral k n ->
    (exists r,
       evals (name_call combinators.is_zero n) x st r st /\
       evals r y st (if Nat.eqb k 0 then x else y) st) /\
    equiv (name_call (name_call (name_call combinators.is_zero n) x) y)
          (if Nat.eqb k 0 then x else y).
Proof.
  intros k n x y st H.
  assert (Hsel : forall s, exists r,
             evals (name_call combinators.is_zero n) x s r s /\
             evals r y s (if Nat.eqb k 0 then x else y) s).
  { intros s. destruct (is_zero_numeral x y s H) as (r & H1 & H2).
    exists r. split; [exact H1|]. destruct k; exact H2. }
  split; [apply Hsel|].
  apply equiv_call_value. intros s. destruct (Hsel s) as (r & H1 & H2).
  eapply evals_call; eassumption.
Qed.

Lemma is_zero_of_numeral_witness :
  exists r,
    evals (name_call combinators.is_zero (church_encode 2))
          combinators.K (Frames 0 []) r (Frames 0 []) /\
    evals r combinators.I (Frames 0 []) combinators.I (Frames 0 []).
Proof.
  apply (@is_zero_of_numeral 2 (church_encode 2) combinators.K combinators.I
           (Frames 0 []) (church_encode_numeral 2)).
Defined.

(** X8. [is_zero(sub(church_encode(n))(church_encode(m)))] decides
    [n <= m]: value-called with [x] and then [y] it returns [x] when
    [n <= m] and [y] when [n > m]. *)
Theorem is_zero_sub_decides_le : forall (n m : N) (x y : expression) (st : frames),
  exists r,
    evals (name_call combinators.is_zero
             (name_call (name_call combinators.sub (church_encode n))
                        (church_encode m))) x st r st /\
    evals r y st (if (n <=? m)%N then x else y) st.
Proof.
  intros n m x y st.
  destruct (is_zero_numeral x y st (sub_numeral n m)) as (r & H1 & H2).
  exists r. split; [exact H1|].
  destruct (N.leb_spec n m) as [Hle | Hgt].
  - replace (N.to_nat n - N.to_nat m) with 0 in H2 by lia. exact H2.
  - destruct (N.to_nat n - N.to_nat m) eqn:E; [lia | exact H2].
Qed.

(** * Selectors on Scott lists *)

Lemma car_equiv : forall l e acc,
  equiv l (name_call (name_call combinators.cons e) acc) ->
  equiv (name_call combinators.car l) e.
Proof.
  intros l e acc Hl.
  apply equiv_trans with (name_call l L_car_x).
  - apply equiv_call_value. intros st. exists 1. reflexivity.
  - eapply car_of_cons. exact Hl.
Qed.

Lemma cdr_equiv : forall l e acc,
  equiv l (name_call (name_call combinators.cons e) acc) ->
  equiv (name_call combinators.cdr l) acc.
Proof.
  intros l e acc Hl.
  apply equiv_trans with (name_call l L_cdr_x).
  - apply equiv_call_value. intros st. exists 1. reflexivity.
  - eapply cdr_of_cons. exact Hl.
Qed.

Lemma nth_by_selectors : forall k s l e,
  equiv l (scott_encode s) ->
  nth_error s k = Some e ->
  equiv (name_call combinators.car (Nat.iter k (name_call combinators.cdr) l)) e.
Proof.
  induction k as [|k IH]; intros s l e Hl Hn; destruct s as [|e0 s];
    try discriminate Hn; cbn [nth_error] in Hn; rewrite scott_encode_cons in Hl.
  - injection Hn as <-. cbn [Nat.iter nat_rect]. eapply car_equiv. exact Hl.
  - rewrite Nat.iter_succ_r. apply (IH s); [|exact Hn].
    eapply cdr_equiv. exact Hl.
Qed.

(** X9. The selectors undo [cons] and index an encoded list: for all
    expressions [a] and [b], [car(cons(a)(b))] cannot be told from [a] and
    [cdr(cons(a)(b))] from [b] by value calls; and when [e] is the element
    of index [k] of [s], [car] of [k] applications of [cdr] to
    [scott_encode s] cannot be told from [e]. *)
Theorem selectors_index_list :
  forall (a b : expression) (s : list expression) (k : nat) (e : expression),
    nth_error s k = Some e ->
    equiv (name_call combinators.car (name_call (name_call combinators.cons a) b)) a /\
    equiv (name_call combinators.cdr (name_call (name_call combinators.cons a) b)) b /\
    equiv (name_call combinators.car
             (Nat.iter k (name_call combinators.cdr) (scott_encode s))) e.
Proof.
  intros a b s k e Hn. split; [|split].
  - eapply car_equiv. apply equiv_refl.
  - eapply cdr_equiv. apply equiv_refl.
  - eapply nth_by_selectors; [apply equiv_refl | exact Hn].
Qed.

Lemma selectors_index_list_witness :
  equiv (name_call combinators.car
           (Nat.iter 1 (name_call combinators.cdr)
              (scott_encode [combinators.I; combinators.K; combinators.S])))
        combinators.K.
Proof.
  apply (@selectors_index_list combinators.I combinators.I
           [combinators.I; combinators.K; combinators.S] 1 combinators.K).
  reflexivity.
Defined.

(** X10. The selectors on the empty list do not fail: [car(empty_list)] and
    [cdr(empty_list)], value-called with [x] and then [y], return [x], as
    [truth] does, since [empty_list] ignores the selector it is given. *)
Theorem selectors_on_empty_list : forall (x y : expression) (st : frames),
  (exists r,
     evals (name_call combinators.car combinators.empty_list) x st r st /\
     evals r y st x st) /\
  (exists r,
     evals (name_call combinators.cdr combinators.empty_list) x st r st /\
     evals r y st x st).
Proof.
  intros x y st. split; exists (L_empty_list_xy x);
    (split; [exists 4; reflexivity | exists 1; reflexivity]).
Qed.

(** * The combinators S, K, I, iota and Y *)

(** X14. The reduction rules of the SKI basis hold up to value calls:
    [I(x)] and [K(x)(y)] cannot be told from [x], [S(x)(y)(z)] cannot be
    told from [x(z)(y(z))], and [i(f)] cannot be told from [f(S)(K)]; so
    [S(K)(K)(x)] and [i(i)(x)] cannot be told from [x]. *)
Theorem ski_reduction_rules : forall (x y z : expression),
  equiv (name_call combinators.I x) x /\
  equiv (name_call (name_call combinators.K x) y) x /\
  equiv (name_call (name_call (name_call combinators.S x) y) z)
        (name_call (name_call x z) (name_call y z)) /\
  equiv (name_call combinators.i x)
        (name_call (name_call x combinators.S) combinators.K) /\
  equiv (name_call (name_call (name_call combinators.S combinators.K) combinators.K) x) x /\
  equiv (name_call (name_call combinators.i combinators.i) x) x.
Proof.
  intros x y z. split; [|split; [|split; [|split; [|split]]]].
  - apply equiv_call_value. intros st. exists 1. reflexivity.
  - apply equiv_call_value. intros st. exists 3. reflexivity.
  - apply equiv_call_value. intros st. exists 5. reflexivity.
  - apply equiv_call_value. intros st. exists 1. reflexivity.
  - apply equiv_trans
      with (name_call (name_call combinators.K x) (name_call combinators.K x)).
    + apply equiv_call_value. intros st. exists 5. reflexivity.
    + apply equiv_call_value. intros st. exists 3. reflexivity.
  - apply equiv_trans
      with (name_call (name_call combinators.K x)
              (name_call (name_call combinators.K combinators.K) x)).
    + apply equiv_call_value. intros st. exists 12. reflexivity.
    + apply equiv_call_value. intros st. exists 3. reflexivity.
Qed.

(** X15. [Y] applied to a function that ignores its argument does not
    diverge: [Y(K(a))] cannot be told from [a] by value calls, the self
    application that [Y] builds being passed to [K(a)] and never forced. *)
Theorem Y_of_constant_function : forall a : expression,
  equiv (name_call combinators.Y (name_call combinators.K a)) a.
Proof.
  intros a.
  apply equiv_trans
    with (Y_body (name_call combinators.K a) (L_Y_x (name_call combinators.K a))).
  - apply equiv_call_value. intros st. exists 1. reflexivity.
  - apply equiv_call_value. intros st. exists 3. reflexivity.
Qed.

(** * The pipeline on programs known by their behaviour *)

(** [scott_decode] uses its argument only through value calls: on anything
    that cannot be told from the encoding of [s] it emits one expression per
    element of [s]. *)
Lemma scott_decode_behaves : forall s l st,
  equiv l (scott_encode s) ->
  exists fuel out,
    (forall fuel', fuel <= fuel' ->
       scott_decode fuel' l st =
       Some (tt, Frames (decoded st) (result st ++ out))) /\
    Forall2 equiv out s.
Proof.
  intros s l [d o] Hl.
  destruct (@output_list_loop s l d o Hl) as (out & Hev & Hout).
  apply evals_call_inv in Hev. destruct Hev as (r2 & st1 & Hev1 & Hev2).
  assert (Hrun : evals (name_call L_output_list output_list_self) l
                   (Frames d o) r2 st1).
  { eapply evals_call; [exists 1; reflexivity | exact Hev1]. }
  assert (Hlast : evals L_empty_list_x combinators.I (Frames d (o ++ out))
                    (L_empty_list_xy combinators.I) (Frames d (o ++ out)))
    by (exists 1; reflexivity).
  destruct (scott_decode_evals Hrun Hev2 Hlast) as [fuel Hfuel].
  exists fuel, out. split; [exact Hfuel | exact Hout].
Qed.

Lemma transform_church_decode_behaves : forall out ms,
  Forall2 (fun c m => equiv c (church_encode m)) out ms ->
  Forall (fun m => (m < size_modulus)%N) ms ->
  forall st, exists fuel, forall fuel', fuel <= fuel' ->
    exists st', transform (church_decode fuel') out st = Some (ms, st').
Proof.
  induction 1 as [|c m out ms Hc Hrest IH]; intros Hms st.
  - exists 0. intros fuel' _. exists st. reflexivity.
  - inversion Hms as [|m' ms' Hm Hms']. subst.
    destruct (church_decode_equiv st Hc Hm) as [f1 H1].
    destruct (IH Hms' (Frames m (result st))) as [f2 H2].
    exists (f1 + f2). intros fuel' Hle.
    destruct (H2 fuel' ltac:(lia)) as [st' H2'].
    exists st'. cbn [transform]. unfold bind.
    rewrite (church_decode_mono _ _ H1) by lia.
    rewrite H2'. reflexivity.
Qed.

Lemma Forall2_equiv_church : forall out s ms,
  Forall2 equiv out s ->
  Forall2 (fun e m => equiv e (church_encode m)) s ms ->
  Forall2 (fun c m => equiv c (church_encode m)) out ms.
Proof.
  intros out s ms H. revert ms.
  induction H as [|c e out s Hce Hrest IH]; intros ms Hs;
    inversion Hs; subst; constructor.
  - eapply equiv_trans; eassumption.
  - apply IH. assumption.
Qed.

Lemma Forall2_church_encode : forall ns,
  Forall2 (fun e m => equiv e (church_encode m)) (map church_encode ns) ns.
Proof.
  induction ns as [|n ns IH]; constructor; [apply equiv_refl | exact IH].
Qed.

Lemma run_on_integer_sequence_behaves : forall input program s ms out,
  equiv (name_call program (scott_encode (map church_encode input)))
        (scott_encode s) ->
  Forall2 (fun e m => equiv e (church_encode m)) s ms ->
  Forall (fun m => (m < size_modulus)%N) ms ->
  exists fuel, forall fuel', fuel <= fuel' ->
    run_on_integer_sequence fuel' input program out = Some (out ++ ms).
Proof.
  intros input program s ms out Hp Hs Hms.
  destruct (@scott_decode_behaves s _ (Frames 0 []) Hp)
    as (f1 & emitted & Hdec & Hem).
  destruct (transform_church_decode_behaves
              (Forall2_equiv_church Hem Hs) Hms (Frames 0 emitted)) as [f2 Htr].
  exists (f1 + f2). intros fuel' Hle.
  unfold run_on_integer_sequence.
  rewrite (Hdec fuel') by lia. cbn [decoded result app].
  destruct (Htr fuel' ltac:(lia)) as [st' Htr'].
  rewrite Htr'. reflexivity.
Qed.



(** X12. The identity program returns its input: for every input sequence
    of naturals that fit a [std::size_t], [run_on_integer_sequence] with the
    program [I] returns, at every depth bound from some bound on, and has
    appended exactly the input to the output. *)
Theorem run_identity_on_every_input : forall (input out : list N),
  Forall (fun n => (n < size_modulus)%N) input ->
  exists fuel, forall fuel', fuel <= fuel' ->
    run_on_integer_sequence fuel' input combinators.I out = Some (out ++ input).
Proof.
  intros input out Hin.
  apply run_on_integer_sequence_behaves with (s := map church_encode input).
  - apply equiv_call_value. intros st. exists 1. reflexivity.
  - apply Forall2_church_encode.
  - exact Hin.
Qed.

Lemma run_identity_on_every_input_witness :
  exists fuel, forall fuel', fuel <= fuel' ->
    run_on_integer_sequence fuel' [2; 7; 1; 8]%N combinators.I [5]%N =
    Some ([5] ++ [2; 7; 1; 8])%N.
Proof.
  apply (@run_identity_on_every_input [2; 7; 1; 8]%N [5]%N).
  repeat constructor.
Defined.

(** X13. The program [cdr] drops the first element: for every input
    sequence of naturals that fit a [std::size_t], the run appends the input
    without its first element; on the empty input it appends nothing. *)
Theorem run_cdr_drops_first : forall (input out : list N),
  Forall (fun n => (n < size_modulus)%N) input ->
  exists fuel, forall fuel', fuel <= fuel' ->
    run_on_integer_sequence fuel' input combinators.cdr out =
    Some (out ++ tl input).
Proof.
  intros [|n input] out Hin.
  - exists 8. intros fuel' Hle.
    apply run_on_integer_sequence_mono with (fuel := 8); [reflexivity | exact Hle].
  - inversion Hin as [|n' input' Hn Hrest]. subst. cbn [tl].
    apply run_on_integer_sequence_behaves with (s := map church_encode input).
    + cbn [map]. rewrite scott_encode_cons. eapply cdr_equiv. apply equiv_refl.
    + apply Forall2_church_encode.
    + exact Hrest.
Qed.

Lemma run_cdr_drops_first_witness :
  exists fuel, forall fuel', fuel <= fuel' ->
    run_on_integer_sequence fuel' [3; 1; 4]%N combinators.cdr [] =
    Some ([] ++ tl [3; 1; 4])%N.
Proof.
  apply (@run_cdr_drops_first [3; 1; 4]%N []). repeat constructor.
Defined.

(** X16. The program [cons(church_encode(k))] puts [k] in front: for every
    [k] and input sequence of naturals that fit a [std::size_t], the run
    appends [k] followed by the input. *)
Theorem run_cons_prepends : forall (k : N) (input out : list N),
  (k < size_modulus)%N ->
  Forall (fun n => (n < size_modulus)%N) input ->
  exists fuel, forall fuel', fuel <= fuel' ->
    run_on_integer_sequence fuel' input
      (name_call combinators.cons (church_encode k)) out =
    Some (out ++ k :: input).
Proof.
  intros k input out Hk Hin.
  apply run_on_integer_sequence_behaves
    with (s := church_encode k :: map church_encode input).
  - rewrite scott_encode_cons. apply equiv_refl.
  - constructor; [apply equiv_refl | apply Forall2_church_encode].
  - constructor; assumption.
Qed.

Lemma run_cons_prepends_witness :
  exists fuel, forall fuel', fuel <= fuel' ->
    run_on_integer_sequence fuel' [1; 4]%N
      (name_call combinators.cons (church_encode 3)) [] =
    Some ([] ++ [3; 1; 4])%N.
Proof.
  apply (@run_cons_prepends 3%N [1; 4]%N []).
  - reflexivity.
  - repeat constructor.
Defined.
